(** * The 2048 grid engine of [2048_GAME.py]

    A shallow embedding of the class [Game2048]: the 4x4 NumPy grid, the
    score accumulator, the row pass [move], the four arrow-key handlers,
    the tile spawn [add_random_tile] and the end-of-game test [can_move].
    The Tk widgets are kept as the values the program stores in them
    (label texts and colours, the clock, the pending timer callback);
    their layout and fonts are left out. *)

From Stdlib Require Import ZArith List Lia Bool.
From Stdlib Require Import DecimalString DecimalPos DecimalZ.
From stdpp Require Import base decidable option list strings gmap.
Import ListNotations.

Local Open Scope Z_scope.

(** ** Machine integers

    [np.zeros((4, 4), dtype=int)] is an array of 64-bit signed integers, and
    an element read from it is an [np.int64] scalar: products and sums of
    such scalars wrap around modulo [2^64]. *)
Module Int64.

Definition modulus : Z := 2 ^ 64.
Definition min_signed : Z := - 2 ^ 63.
Definition max_signed : Z := 2 ^ 63 - 1.

Definition wrap (z : Z) : Z := (z + 2 ^ 63) mod modulus - 2 ^ 63.

Definition add (a b : Z) : Z := wrap (a + b).
Definition mul (a b : Z) : Z := wrap (a * b).

Definition in_range (z : Z) : Prop := min_signed <= z <= max_signed.

End Int64.

(** ** The NumPy operations the program calls

    A two-dimensional array is a list of rows.  These follow the documented
    behaviour of the library functions of the same names. *)
Abbreviation grid := (list (list Z)).

(** [g[i][j]] *)
Definition cell (g : grid) (i j : nat) : Z := nth j (nth i g []) 0.

Module Np.

(** [a[a != 0]]: a fresh array holding the non-zero entries in order. *)
Definition nonzero (a : list Z) : list Z :=
  List.filter (fun x => negb (x =? 0)) a.

(** [np.zeros_like(m)] *)
Definition zeros_like (m : grid) : grid :=
  map (fun r => repeat 0 (length r)) m.

(** [dst[:len(src)] = src] *)
Definition assign_prefix (dst src : list Z) : list Z :=
  src ++ drop (length src) dst.

(** [np.fliplr(m)] and [np.flipud(m)] *)
Definition fliplr (m : grid) : grid := map (@rev Z) m.
Definition flipud (m : grid) : grid := rev m.

(** [np.transpose(m)] of a rectangular array *)
Definition transpose (m : grid) : grid :=
  map (fun j => map (fun r => nth j r 0) m) (seq 0 (length (hd [] m))).

(** [np.rot90(m, k)]: [k] quarter turns counterclockwise. *)
Definition rot90 (m : grid) (k : Z) : grid :=
  match k mod 4 with
  | 0 => m
  | 1 => transpose (fliplr m)
  | 2 => fliplr (flipud m)
  | _ => fliplr (transpose m)
  end.

(** [np.array_equal(a, b)] *)
Definition array_equal (a b : grid) : bool := bool_decide (a = b).

End Np.

(** ** The object state and the methods that thread it *)

(** The fields of a [Game2048] object that the game logic reads or writes.
    [game_over] clears [running] and unbinds the four arrow keys in the same
    call, so [running] also tells whether the handlers are still bound. *)
Record game : Type := Game {
  game_grid : grid;
  score : Z;
  running : bool
}.

Definition M (A : Type) : Type := game -> A * game.

#[global] Instance M_ret : MRet M := fun A a st => (a, st).
#[global] Instance M_bind : MBind M :=
  fun A B f m st => let '(a, st') := m st in f a st'.

Definition get_grid : M grid := fun st => (game_grid st, st).
Definition set_grid (g : grid) : M unit :=
  fun st => (tt, Game g (score st) (running st)).
Definition add_score (v : Z) : M unit :=
  fun st => (tt, Game (game_grid st) (Int64.add (score st) v) (running st)).
Definition set_running (b : bool) : M unit :=
  fun st => (tt, Game (game_grid st) (score st) b).

(** [for x in xs: acc = body(x, acc)] *)
Fixpoint for_each {A S : Type} (xs : list A) (body : A -> S -> M S) (acc : S)
  : M S :=
  match xs with
  | [] => mret acc
  | x :: xs' => acc' ← body x acc; for_each xs' body acc'
  end.

(** [range(n)] *)
Definition range (n : nat) : list nat := seq 0 n.

(** The body of the inner loop of [move]:
    [if row[j] == row[j + 1]: row[j] *= 2; self.score += row[j]; row[j + 1] = 0] *)
Definition merge_at (j : nat) (row : list Z) : M (list Z) :=
  if bool_decide (nth j row 0 = nth (j + 1) row 0) then
    let row1 := <[j := Int64.mul (nth j row 0) 2]> row in
    _ ← add_score (nth j row1 0);
    mret (<[(j + 1)%nat := 0]> row1)
  else mret row.

(** The body of the outer loop of [move], for the row at index [i]. *)
Definition move_row (matrix : grid) (i : nat) (new_matrix : grid) : M grid :=
  let row := Np.nonzero (nth i matrix []) in
  row ← for_each (range (length row - 1)) merge_at row;
  let row := Np.nonzero row in
  mret (<[i := Np.assign_prefix (nth i new_matrix []) row]> new_matrix).

(** [Game2048.move] *)
Definition move (matrix : grid) : M grid :=
  for_each (range 4) (move_row matrix) (Np.zeros_like matrix).

(** [Game2048.rotate_grid] *)
Definition rotate_grid (g : grid) (k : Z) : grid := Np.rot90 g k.

(** The loop shared, textually, by the four handlers:
    [new_grid = self.move(self.game_grid)]
    [if not np.array_equal(new_grid, self.game_grid): moved = True]
    [self.game_grid = new_grid] *)
Definition pass_body (_ : nat) (moved : bool) : M bool :=
  g ← get_grid;
  new_grid ← move g;
  g ← get_grid;
  let moved := if negb (Np.array_equal new_grid g) then true else moved in
  _ ← set_grid new_grid;
  mret moved.

(** [random.choice(xs)]: the element the generator picks is the one at an
    index below [len(xs)]; the index is supplied from outside. *)
Definition choice {A : Type} (k : nat) (xs : list A) (d : A) : A :=
  nth (k mod length xs) xs d.

(** [[(i, j) for i in range(4) for j in range(4) if self.game_grid[i][j] == 0]] *)
Definition empty_cells (g : grid) : list (nat * nat) :=
  List.filter (fun '(i, j) => cell g i j =? 0)
    (flat_map (fun i => map (fun j => (i, j)) (range 4)) (range 4)).

(** [g[i][j] = v] *)
Definition set_cell (g : grid) (i j : nat) (v : Z) : grid :=
  <[i := <[j := v]> (nth i g [])]> g.

(** [Game2048.add_random_tile]; [pick] and [val] are the two random draws. *)
Definition add_random_tile (pick val : nat) : M unit :=
  g ← get_grid;
  let cells := empty_cells g in
  match cells with
  | [] => mret tt
  | _ :: _ =>
      let '(i, j) := choice pick cells (0%nat, 0%nat) in
      set_grid (set_cell g i j (choice val [2; 4] 0))
  end.

(** [Game2048.can_move]: the first cell that is empty or equals its right
    or lower neighbour makes the method return [True]. *)
Definition can_move : M bool :=
  g ← get_grid;
  mret (existsb (fun row =>
          existsb (fun col =>
            (cell g row col =? 0)
            || ((col <? 3)%nat && (cell g row col =? cell g row (col + 1)))
            || ((row <? 3)%nat && (cell g row col =? cell g (row + 1) col)))
          (range 4))
        (range 4)).

(** [Game2048.game_over] *)
Definition game_over : M unit := set_running false.

(** [Game2048.after_move] *)
Definition after_move (pick val : nat) : M unit :=
  _ ← add_random_tile pick val;
  ok ← can_move;
  if negb ok then game_over else mret tt.

(** The four handlers, up to the final [if moved: self.after_move()]:
    each returns its local variable [moved]. *)
Definition shift_left : M bool :=
  for_each (range 3) pass_body false.

Definition shift_up : M bool :=
  g ← get_grid;
  _ ← set_grid (rotate_grid g 1);
  moved ← for_each (range 3) pass_body false;
  g ← get_grid;
  _ ← set_grid (rotate_grid g 3);
  mret moved.

Definition shift_down : M bool :=
  g ← get_grid;
  _ ← set_grid (rotate_grid g 3);
  moved ← for_each (range 3) pass_body false;
  g ← get_grid;
  _ ← set_grid (rotate_grid g 1);
  mret moved.

Definition shift_right : M bool :=
  g ← get_grid;
  _ ← set_grid (Np.fliplr g);
  moved ← for_each (range 3) pass_body false;
  g ← get_grid;
  _ ← set_grid (Np.fliplr g);
  mret moved.

(** [Game2048.move_left], [move_up], [move_down], [move_right] *)
Definition move_left (pick val : nat) : M unit :=
  moved ← shift_left; if (moved : bool) then after_move pick val else mret tt.
Definition move_up (pick val : nat) : M unit :=
  moved ← shift_up; if (moved : bool) then after_move pick val else mret tt.
Definition move_down (pick val : nat) : M unit :=
  moved ← shift_down; if (moved : bool) then after_move pick val else mret tt.
Definition move_right (pick val : nat) : M unit :=
  moved ← shift_right; if (moved : bool) then after_move pick val else mret tt.

(** The arrow keys and the dispatch of a key press: a handler runs only
    while its key is still bound. *)
Inductive key : Type := Up | Down | Left | Right.

Definition shift (k : key) : M bool :=
  match k with
  | Up => shift_up
  | Down => shift_down
  | Left => shift_left
  | Right => shift_right
  end.

Definition handler (k : key) (pick val : nat) : M unit :=
  match k with
  | Up => move_up pick val
  | Down => move_down pick val
  | Left => move_left pick val
  | Right => move_right pick val
  end.

Definition press (k : key) (pick val : nat) (st : game) : game :=
  if running st then snd (handler k pick val st) else st.

(** [np.zeros((4, 4), dtype=int)] *)
Definition zeros44 : grid := repeat (repeat 0 4%nat) 4%nat.

(** [Game2048.__init__]: an empty grid, two spawned tiles, score 0. *)
Definition init (pick1 val1 pick2 val2 : nat) : game :=
  let '(_, st) :=
    (_ ← add_random_tile pick1 val1; add_random_tile pick2 val2)
      (Game zeros44 0 true) in
  Game (game_grid st) 0 true.

(** The states the program can be in: the constructed object and whatever
    key presses make of it. *)
Inductive reachable : game -> Prop :=
| reachable_init p1 v1 p2 v2 : reachable (init p1 v1 p2 v2)
| reachable_press k pick val st :
    reachable st -> reachable (press k pick val st).

(** ** Vocabulary of the specification *)

(** A 4x4 array. *)
Definition is_grid (g : grid) : Prop :=
  length g = 4%nat /\ Forall (fun r => length r = 4%nat) g.

Definition with_score (st : game) (s : Z) : game :=
  Game (game_grid st) s (running st).
Definition with_grid (st : game) (g : grid) : game :=
  Game g (score st) (running st).

Module Spec.

(** "remove zeros preserving left-to-right order of non-zero values" *)
Fixpoint remove_zeros (l : list Z) : list Z :=
  match l with
  | [] => []
  | x :: t => if bool_decide (x = 0) then remove_zeros t
              else x :: remove_zeros t
  end.

(** The doubled value of a cell, in the cell's own 64-bit arithmetic. *)
Definition doubled (v : Z) : Z := Int64.mul v 2.

(** "scan remaining values left-to-right, and whenever two adjacent values
    are equal, merge them into the left cell (doubled value), zero out the
    right cell ... and do not allow the merged cell to merge again in the
    same pass": the scan resumes after the pair it has just merged.  The
    first component is the row after the scan, the second the merged
    tiles it created, in order. *)
Fixpoint merge_scan (l : list Z) : list Z * list Z :=
  match l with
  | [] => ([], [])
  | a :: t =>
      match t with
      | [] => ([a], [])
      | b :: t' =>
          if bool_decide (a = b) then
            let '(r, m) := merge_scan t' in
            (doubled a :: 0 :: r, doubled a :: m)
          else
            let '(r, m) := merge_scan t in (a :: r, m)
      end
  end.

(** "re-compact zeros after merging", on a row already free of zeros *)
Definition squeeze (l : list Z) : list Z :=
  remove_zeros (fst (merge_scan l)).

(** "pad the remainder of the row with zeros" *)
Definition pad (n : nat) (l : list Z) : list Z :=
  l ++ repeat 0 (n - length l).

(** The compact-left primitive on one row. *)
Definition compact_left (r : list Z) : list Z :=
  pad (length r) (squeeze (remove_zeros r)).

(** The merged tiles one pass creates in a row, and in a grid. *)
Definition merged (r : list Z) : list Z := snd (merge_scan (remove_zeros r)).
Definition merged_grid (g : grid) : list Z := concat (map merged g).

(** "add the doubled value to score", one merged tile after the other. *)
Definition add_all (s : Z) (ms : list Z) : Z := fold_left Int64.add ms s.

(** The transform and its inverse that reduce a direction to Left. *)
Definition transform (k : key) (g : grid) : grid :=
  match k with
  | Up => Np.rot90 g 1
  | Down => Np.rot90 g 3
  | Right => Np.fliplr g
  | Left => g
  end.
Definition inverse_transform (k : key) (g : grid) : grid :=
  match k with
  | Up => Np.rot90 g 3
  | Down => Np.rot90 g 1
  | Right => Np.fliplr g
  | Left => g
  end.

(** "every cell is non-zero AND no adjacent pair (row-neighbor or
    column-neighbor) is equal" *)
Definition over (g : grid) : Prop :=
  forall i j : nat, (i < 4)%nat -> (j < 4)%nat ->
    cell g i j <> 0
    /\ ((j < 3)%nat -> cell g i j <> cell g i (j + 1))
    /\ ((i < 3)%nat -> cell g i j <> cell g (i + 1) j).

(** A power of two. *)
Definition power_of_two (v : Z) : Prop := exists k : Z, 0 <= k /\ v = 2 ^ k.

(** The number of occupied cells. *)
Definition occupied (g : grid) : nat := length (Np.nonzero (concat g)).

(** "every non-zero cell is a power of two; the grid never has more than
    16 occupied cells" *)
Definition invariant (g : grid) : Prop :=
  (forall i j : nat, (i < 4)%nat -> (j < 4)%nat ->
     cell g i j <> 0 -> power_of_two (cell g i j))
  /\ (occupied g <= 16)%nat.

(** *** The pass in plain numbers

    The same sentences read over the integers, with no reference to the
    arithmetic of the cells: "doubled value" is twice the value, and
    "adding the doubled value to the score" is a sum. *)
Definition twice (v : Z) : Z := 2 * v.

Fixpoint merge_pairs (l : list Z) : list Z * list Z :=
  match l with
  | [] => ([], [])
  | a :: t =>
      match t with
      | [] => ([a], [])
      | b :: t' =>
          if bool_decide (a = b) then
            let '(r, m) := merge_pairs t' in
            (twice a :: 0 :: r, twice a :: m)
          else
            let '(r, m) := merge_pairs t in (a :: r, m)
      end
  end.

(** Zeros removed, pairs merged, zeros removed again, zero padding. *)
Definition compact_row (r : list Z) : list Z :=
  pad (length r) (remove_zeros (fst (merge_pairs (remove_zeros r)))).

(** The doubled values one pass creates in a row, and their sum over the
    rows of a grid: what one pass adds to the score. *)
Definition merged_tiles (r : list Z) : list Z :=
  snd (merge_pairs (remove_zeros r)).
Definition gain (g : grid) : Z :=
  fold_right Z.add 0 (concat (map merged_tiles g)).

(** *** The transforms, cell by cell

    A 4x4 grid given by its cells. *)
Definition from_cells (f : nat -> nat -> Z) : grid :=
  map (fun i => map (fun j => f i j) (seq 0 4)) (seq 0 4).

(** "rotate 90": a quarter turn counterclockwise; row [i] of the result is
    column [3 - i] of the grid read from top to bottom, so the top of every
    column comes first in its row. *)
Definition rotate90 (g : grid) : grid :=
  from_cells (fun i j => cell g j (3 - i)).

(** "rotate 270": row [i] of the result is column [i] of the grid read from
    bottom to top. *)
Definition rotate270 (g : grid) : grid :=
  from_cells (fun i j => cell g (3 - j) i).

(** "horizontal flip": every row read from right to left. *)
Definition flip (g : grid) : grid :=
  from_cells (fun i j => cell g i (3 - j)).

(** "transform" and "inverse transform" of the four directions. *)
Definition to_left (k : key) (g : grid) : grid :=
  match k with
  | Up => rotate90 g
  | Down => rotate270 g
  | Right => flip g
  | Left => g
  end.
Definition from_left (k : key) (g : grid) : grid :=
  match k with
  | Up => rotate270 g
  | Down => rotate90 g
  | Right => flip g
  | Left => g
  end.

End Spec.

(** One pass and three passes over a grid, row by row. *)
Definition pass (g : grid) : grid := map Spec.compact_left g.
Definition pass3 (g : grid) : grid := pass (pass (pass g)).

(** Whether a pass changes the grid, and the value of the handlers' local
    variable [moved] after the three passes. *)
Definition changed (g : grid) : bool := negb (Np.array_equal (pass g) g).
Definition moved3 (g : grid) : bool :=
  if changed (pass (pass g)) then true
  else if changed (pass g) then true
  else if changed g then true else false.

(** The score after one pass and after three. *)
Definition pass_score (g : grid) (s : Z) : Z :=
  Spec.add_all s (Spec.merged_grid g).
Definition pass3_score (g : grid) (s : Z) : Z :=
  pass_score (pass (pass g)) (pass_score (pass g) (pass_score g s)).

(** A cell that can be doubled without leaving the 64-bit range. *)
Definition doubles (v : Z) : Prop := - 2 ^ 62 <= v < 2 ^ 62.

(** ** Measures on the cells of a grid, for the invariants *)

(** The sum of [phi] over a list of cells. *)
Definition total (phi : Z -> Z) (l : list Z) : Z :=
  fold_right (fun x acc => phi x + acc) 0 l.

(** The plain sum of a list. *)
Definition sum (l : list Z) : Z := total (fun v => v) l.

(** The number of cells holding at least [t]. *)
Definition at_least (t x : Z) : Z := if t <=? x then 1 else 0.
Definition count_ge (t : Z) (l : list Z) : Z := total (at_least t) l.

(** What a tile stands for in score when it is built from tiles of value 2:
    [(k - 1) * 2^k] for the tile [2^k]. *)
Definition earned (v : Z) : Z := (Z.log2 v - 1) * v.

(** A cell of the game: empty, or one of 2, 4, 8, ... *)
Definition tile (v : Z) : Prop := v = 0 \/ exists k : Z, 1 <= k /\ v = 2 ^ k.

(** A cell that a doubling cannot overflow. *)
Definition fits (v : Z) : Prop := tile v /\ v < 2 ^ 62.

(** The invariant that makes the others inductive: besides its shape and
    its tiles, a grid holds at most [18 - m] tiles of value [2^m] or more
    (so none above [2^17]), and the score never exceeds what the tiles on
    the grid stand for. *)
Definition sound_cells (g : grid) : Prop :=
  is_grid g
  /\ Forall tile (concat g)
  /\ (forall m : Z, 3 <= m <= 18 -> count_ge (2 ^ m) (concat g) <= 18 - m).

Record sound (st : game) : Prop := {
  sound_grid : sound_cells (game_grid st);
  sound_score : 0 <= score st <= total earned (concat (game_grid st))
}.

(** The state after [n] of the three passes of a handler for key [k]. *)
Definition one_pass (st : game) : game := snd (pass_body 0 false st).
Definition after_passes (k : key) (n : nat) (st : game) : game :=
  Nat.iter n one_pass (with_grid st (Spec.transform k (game_grid st))).

(** The grid of the two Status examples. *)
Definition checkerboard : grid :=
  [[2;4;2;4];[4;2;4;2];[2;4;2;4];[4;2;4;2]].

(** ** The window: labels, colours and the timer

    The Tk widgets are kept as the values the program stores in them: the
    [text] and [bg] options of the sixteen tile labels, the texts of the
    score and time labels, the number of "Game Over!" labels created, and
    whether a [master.after(1000, self.update_timer)] callback is
    pending. *)

(** [str(n)] of an integer: its decimal numeral. *)
Definition str (n : Z) : string := NilZero.string_of_int (Z.to_int n).

(** The dictionary [colors] of [get_color]. *)
Definition colors : gmap Z string :=
  list_to_map
    [(0, "lightgray"); (2, "lightyellow"); (4, "lightgreen");
     (8, "lightblue"); (16, "lightcoral"); (32, "orange");
     (64, "lightpink"); (128, "yellow"); (256, "green"); (512, "blue");
     (1024, "coral"); (2048, "gold")]%string.

(** [Game2048.get_color]: [colors.get(number, 'black')] *)
Definition get_color (number : Z) : string :=
  default "black"%string (colors !! number).

Record label : Type := Label { text : string; bg : string }.

Record window : Type := Window {
  model : game;
  time_elapsed : Z;
  score_label : string;
  time_label : string;
  grid_labels : list (list label);
  game_over_labels : nat;
  timer_pending : bool
}.

Definition with_model (w : window) (m : game) : window :=
  Window m (time_elapsed w) (score_label w) (time_label w) (grid_labels w)
    (game_over_labels w) (timer_pending w).

(** [self.grid_labels[row][col] = l] as far as [text] and [bg] go. *)
Definition set_label (ls : list (list label)) (row col : nat) (l : label)
  : list (list label) :=
  <[row := <[col := l]> (nth row ls [])]> ls.

(** What [update_grid] stores in the label of a cell holding [number]:
    [str(number) if number != 0 else ""] and [self.get_color(number)]. *)
Definition tile_label (number : Z) : label :=
  Label (if bool_decide (number <> 0) then str number else ""%string)
        (get_color number).

(** [Game2048.update_grid] *)
Definition update_grid (w : window) : window :=
  let ls :=
    fold_left (fun ls row =>
      fold_left (fun ls col =>
        let number := cell (game_grid (model w)) row col in
        set_label ls row col (tile_label number))
      (range 4) ls)
    (range 4) (grid_labels w) in
  Window (model w) (time_elapsed w)
    ("Score: " +:+ str (score (model w)))%string
    (time_label w) ls (game_over_labels w) (timer_pending w).

(** [Game2048.update_timer] *)
Definition update_timer (w : window) : window :=
  if running (model w) then
    let t := time_elapsed w + 1 in
    Window (model w) t (score_label w)
      ("Time: " +:+ str t +:+ " s")%string
      (grid_labels w) (game_over_labels w) true
  else w.

(** [Game2048.game_over], with the label it creates. *)
Definition game_over_w (w : window) : window :=
  Window (snd (game_over (model w))) (time_elapsed w) (score_label w)
    (time_label w) (grid_labels w) (S (game_over_labels w))
    (timer_pending w).

(** [Game2048.after_move], with its call of [update_grid]. *)
Definition after_move_w (pick val : nat) (w : window) : window :=
  let w1 := with_model w (snd (add_random_tile pick val (model w))) in
  let w2 := update_grid w1 in
  if negb (fst (can_move (model w2))) then game_over_w w2 else w2.

(** A handler on the window: the three passes, then [after_move] when
    they report a change. *)
Definition handler_w (k : key) (pick val : nat) (w : window) : window :=
  let '(moved, m) := shift k (model w) in
  if moved then after_move_w pick val (with_model w m) else with_model w m.

(** The events of the main loop: an arrow key, which runs its handler
    while the key is bound, and the timer callback, which runs only when
    one is pending. *)
Inductive event : Type :=
| KeyPress (k : key) (pick val : nat)
| Tick.

Definition on_event (e : event) (w : window) : window :=
  match e with
  | KeyPress k pick val =>
      if running (model w) then handler_w k pick val w else w
  | Tick =>
      if timer_pending w then
        update_timer
          (Window (model w) (time_elapsed w) (score_label w) (time_label w)
             (grid_labels w) (game_over_labels w) false)
      else w
  end.

(** [Game2048.__init__] on the window: the labels as created, then
    [update_grid()] and [update_timer()]. *)
Definition init_w (p1 v1 p2 v2 : nat) : window :=
  update_timer
    (update_grid
       (Window (init p1 v1 p2 v2) 0
          ("Score: " +:+ str 0)%string ("Time: " +:+ str 0 +:+ " s")%string
          (repeat (repeat (Label "" "lightgray") 4) 4) 0 false)).

Inductive reachable_w : window -> Prop :=
| reachable_w_init p1 v1 p2 v2 : reachable_w (init_w p1 v1 p2 v2)
| reachable_w_event e w : reachable_w w -> reachable_w (on_event e w).

(** What the sixteen tile labels show for a grid. *)
Definition rendered (g : grid) : list (list label) :=
  map (map tile_label) g.

(** Reading a tile label back: the empty text is an empty cell. *)
Definition read_text (s : string) : option Z :=
  if bool_decide (s = ""%string) then Some 0
  else option_map Z.of_int (NilZero.int_of_string s).

(** Sixteen labels in four rows of four. *)
Definition label_grid (ls : list (list label)) : Prop :=
  length ls = 4%nat /\ Forall (fun r => length r = 4%nat) ls.

(** The keys of [colors]. *)
Definition color_keys : list Z :=
  [0; 2; 4; 8; 16; 32; 64; 128; 256; 512; 1024; 2048].

(** What holds of the window between two events. *)
Record in_sync (w : window) : Prop := {
  sync_model : reachable (model w);
  sync_labels : grid_labels w = rendered (game_grid (model w));
  sync_score : score_label w = ("Score: " +:+ str (score (model w)))%string;
  sync_time :
    time_label w = ("Time: " +:+ str (time_elapsed w) +:+ " s")%string;
  sync_over : game_over_labels w = if running (model w) then 0%nat else 1%nat;
  sync_clock : 1 <= time_elapsed w;
  sync_timer : running (model w) = true -> timer_pending w = true
}.

(** ** Vocabulary for the further properties *)

(** A row in which no tile stands right of an empty cell and no two
    neighbouring tiles are equal. *)
Fixpoint settled (l : list Z) : Prop :=
  match l with
  | a :: (b :: _) as t => (a = 0 -> b = 0) /\ (a <> 0 -> a <> b) /\ settled t
  | _ => True
  end.

(** The cells of lane [i] (a row for Left and Right, a column for Up and
    Down) at distance [j] and [j + 1] from the edge the key [k] moves
    towards: the cell in front and the cell behind it. *)
Definition lane (k : key) (i j : nat) : (nat * nat) * (nat * nat) :=
  match k with
  | Left => ((i, j), (i, S j))
  | Right => ((i, 3 - j), (i, 2 - j))
  | Up => ((j, i), (S j, i))
  | Down => ((3 - j, i), (2 - j, i))
  end%nat.

(** * Proofs *)

(** ** The state monad *)

Lemma with_score_id (st : game) : with_score st (score st) = st.
Proof. destruct st; reflexivity. Qed.

Lemma with_score_twice (st : game) (a b : Z) :
  with_score (with_score st a) b = with_score st b.
Proof. reflexivity. Qed.

Ltac run_monad :=
  unfold mbind, M_bind, mret, M_ret, get_grid, set_grid, add_score,
    set_running; simpl.

(** ** The inner loop of [move] is the left-to-right scan *)

Lemma nonzero_remove_zeros (l : list Z) : Np.nonzero l = Spec.remove_zeros l.
Proof.
  induction l as [|x t IH]; simpl; [reflexivity|].
  case_bool_decide as Hx.
  - subst x. simpl. exact IH.
  - destruct (Z.eqb_spec x 0) as [E|E]; [contradiction|]. simpl.
    now rewrite IH.
Qed.

Lemma remove_zeros_nonzero (l : list Z) :
  Forall (fun x => x <> 0) (Spec.remove_zeros l).
Proof.
  induction l as [|x t IH]; simpl; [constructor|].
  case_bool_decide; [exact IH | now constructor].
Qed.

Lemma remove_zeros_fixed (l : list Z) :
  Forall (fun x => x <> 0) l -> Spec.remove_zeros l = l.
Proof.
  induction 1 as [|x t Hx _ IH]; simpl; [reflexivity|].
  case_bool_decide; [contradiction | now rewrite IH].
Qed.

(** Induction following the cases of [Spec.merge_scan]. *)
Lemma scan_ind (P : list Z -> Prop) :
  P [] ->
  (forall a, P [a]) ->
  (forall a t, P t -> P (a :: a :: t)) ->
  (forall a b t, a <> b -> P (b :: t) -> P (a :: b :: t)) ->
  forall l, P l.
Proof.
  intros H0 H1 Heq Hne l.
  assert (H : forall n l, (length l <= n)%nat -> P l).
  { clear l. induction n as [|n IH]; intros [|a [|b t]] Hl; simpl in Hl;
      try exact H0; try apply H1; try lia.
    destruct (decide (a = b)) as [->|Hab].
    - apply Heq, IH. lia.
    - apply Hne; [exact Hab|]. apply IH. simpl. lia. }
  apply (H (length l)). lia.
Qed.

Lemma merge_scan_eq (a : Z) (t : list Z) :
  Spec.merge_scan (a :: a :: t)
  = (Spec.doubled a :: 0 :: fst (Spec.merge_scan t),
     Spec.doubled a :: snd (Spec.merge_scan t)).
Proof.
  simpl. rewrite bool_decide_eq_true_2 by reflexivity.
  destruct (Spec.merge_scan t); reflexivity.
Qed.

Lemma merge_scan_ne (a b : Z) (t : list Z) :
  a <> b ->
  Spec.merge_scan (a :: b :: t)
  = (a :: fst (Spec.merge_scan (b :: t)), snd (Spec.merge_scan (b :: t))).
Proof.
  intros Hab. cbn [Spec.merge_scan].
  rewrite bool_decide_eq_false_2 by exact Hab.
  destruct t as [|c t'].
  - reflexivity.
  - destruct (bool_decide (b = c)).
    + destruct (Spec.merge_scan t'); reflexivity.
    + destruct (Spec.merge_scan (c :: t')); reflexivity.
Qed.

Lemma nth_middle_0 (p : list Z) (a : Z) (t : list Z) :
  nth (length p) (p ++ a :: t) 0 = a.
Proof. induction p; simpl; auto. Qed.

Lemma nth_middle_1 (p : list Z) (a b : Z) (t : list Z) :
  nth (length p + 1) (p ++ a :: b :: t) 0 = b.
Proof. induction p; simpl; auto. Qed.

Lemma insert_middle_0 (p : list Z) (a v : Z) (t : list Z) :
  <[length p := v]> (p ++ a :: t) = p ++ v :: t.
Proof. induction p; simpl; [reflexivity | now f_equal]. Qed.

Lemma insert_middle_1 (p : list Z) (a b v : Z) (t : list Z) :
  <[(length p + 1)%nat := v]> (p ++ a :: b :: t) = p ++ a :: v :: t.
Proof. induction p; simpl; [reflexivity | now f_equal]. Qed.

Lemma merge_at_equal (p : list Z) (a : Z) (t : list Z) (st : game) :
  merge_at (length p) (p ++ a :: a :: t) st
  = (p ++ Spec.doubled a :: 0 :: t,
     with_score st (Int64.add (score st) (Spec.doubled a))).
Proof.
  unfold merge_at.
  rewrite nth_middle_0, nth_middle_1, bool_decide_eq_true_2 by reflexivity.
  rewrite insert_middle_0. run_monad.
  rewrite nth_middle_0, insert_middle_1. reflexivity.
Qed.

Lemma merge_at_differ (p : list Z) (a b : Z) (t : list Z) (st : game) :
  a <> b -> merge_at (length p) (p ++ a :: b :: t) st = (p ++ a :: b :: t, st).
Proof.
  intros Hab. unfold merge_at.
  rewrite nth_middle_0, nth_middle_1, bool_decide_eq_false_2 by exact Hab.
  reflexivity.
Qed.

Lemma merge_loop_scan (l : list Z) :
  Forall (fun x => x <> 0) l ->
  forall (p : list Z) (st : game),
    for_each (seq (length p) (length l - 1)) merge_at (p ++ l) st
    = (p ++ fst (Spec.merge_scan l),
       with_score st (Spec.add_all (score st) (snd (Spec.merge_scan l)))).
Proof.
  induction l as [| a | a t IH | a b t Hab IH] using scan_ind; intros Hnz p st.
  - simpl. now rewrite with_score_id.
  - simpl. now rewrite with_score_id.
  - rewrite merge_scan_eq. cbn [fst snd length].
    replace (S (S (length t)) - 1)%nat with (S (length t)) by lia.
    cbn [seq for_each]. unfold mbind at 1, M_bind at 1.
    rewrite merge_at_equal.
    inversion Hnz as [|? ? Ha Hnz1]; subst.
    inversion Hnz1 as [|? ? _ Hnz2]; subst.
    destruct t as [|c t'].
    + simpl. reflexivity.
    + cbn [length seq for_each]. unfold mbind at 1, M_bind at 1.
      replace (p ++ Spec.doubled a :: 0 :: c :: t')
        with ((p ++ [Spec.doubled a]) ++ 0 :: c :: t')
        by now rewrite <- app_assoc.
      replace (S (length p)) with (length (p ++ [Spec.doubled a]))
        by (rewrite length_app; simpl; lia).
      rewrite merge_at_differ
        by (inversion Hnz2; subst; intro E; symmetry in E; contradiction).
      specialize (IH Hnz2 ((p ++ [Spec.doubled a]) ++ [0])
                    (with_score st (Int64.add (score st) (Spec.doubled a)))).
      replace (length ((p ++ [Spec.doubled a]) ++ [0]))
        with (S (length (p ++ [Spec.doubled a]))) in IH
        by (rewrite !length_app; simpl; lia).
      replace (length (c :: t') - 1)%nat with (length t') in IH
        by (simpl; lia).
      rewrite <- !app_assoc in IH. rewrite <- !app_assoc.
      simpl in IH |- *. rewrite IH. reflexivity.
  - rewrite merge_scan_ne by exact Hab. cbn [fst snd length].
    replace (S (S (length t)) - 1)%nat with (S (length t)) by lia.
    cbn [seq for_each]. unfold mbind at 1, M_bind at 1.
    rewrite merge_at_differ by exact Hab.
    inversion Hnz as [|? ? Ha Hnz1]; subst.
    specialize (IH Hnz1 (p ++ [a]) st).
    replace (length (p ++ [a])) with (S (length p)) in IH
      by (rewrite length_app; simpl; lia).
    replace (length (b :: t) - 1)%nat with (length t) in IH by (simpl; lia).
    rewrite <- !app_assoc in IH. simpl in IH. exact IH.
Qed.

(** ** [move] is one pass of the compact-left primitive over every row *)

Lemma drop_repeat (n k : nat) (x : Z) :
  drop k (repeat x n) = repeat x (n - k).
Proof.
  revert k. induction n as [|n IH]; intros [|k]; simpl; auto.
Qed.

Lemma assign_prefix_zeros (n : nat) (l : list Z) :
  Np.assign_prefix (repeat 0 n) l = Spec.pad n l.
Proof. unfold Np.assign_prefix, Spec.pad. now rewrite drop_repeat. Qed.

Lemma move_row_eq (matrix new_matrix : grid) (i : nat) (st : game) :
  nth i new_matrix [] = repeat 0 (length (nth i matrix [])) ->
  move_row matrix i new_matrix st
  = (<[i := Spec.compact_left (nth i matrix [])]> new_matrix,
     with_score st (Spec.add_all (score st) (Spec.merged (nth i matrix [])))).
Proof.
  intros Hz. unfold move_row, mbind, M_bind, range.
  pose proof (merge_loop_scan (Np.nonzero (nth i matrix []))) as H.
  rewrite nonzero_remove_zeros in H |- *.
  specialize (H (remove_zeros_nonzero _) [] st). simpl in H. rewrite H.
  unfold mret, M_ret, Spec.compact_left, Spec.merged.
  now rewrite Hz, assign_prefix_zeros, nonzero_remove_zeros.
Qed.

Lemma add_all_app (s : Z) (a b : list Z) :
  Spec.add_all (Spec.add_all s a) b = Spec.add_all s (a ++ b).
Proof. unfold Spec.add_all. now rewrite fold_left_app. Qed.

Lemma move_pass (g : grid) (st : game) :
  length g = 4%nat ->
  move g st = (pass g, with_score st (pass_score g (score st))).
Proof.
  intros Hlen.
  destruct g as [|r0 [|r1 [|r2 [|r3 [|]]]]]; simpl in Hlen; try lia.
  unfold move, range. cbn [seq for_each Np.zeros_like map].
  unfold mbind, M_bind.
  rewrite move_row_eq by reflexivity. cbn [nth insert list_insert].
  rewrite move_row_eq by reflexivity. cbn [nth insert list_insert].
  rewrite move_row_eq by reflexivity. cbn [nth insert list_insert].
  rewrite move_row_eq by reflexivity. cbn [nth insert list_insert].
  unfold mret, M_ret, pass, pass_score, Spec.merged_grid.
  cbn [map concat score with_score game_grid running].
  rewrite !add_all_app, app_nil_r, <- !app_assoc. reflexivity.
Qed.

(** ** Shapes *)

Lemma row_of_four (r : list Z) :
  length r = 4%nat -> exists a b c d : Z, r = [a; b; c; d].
Proof.
  destruct r as [|a [|b [|c [|d [|]]]]]; simpl; intros H; try lia.
  now exists a, b, c, d.
Qed.

Lemma is_grid_rows (g : grid) :
  is_grid g ->
  exists a0 a1 a2 a3 b0 b1 b2 b3 c0 c1 c2 c3 d0 d1 d2 d3 : Z,
    g = [[a0;a1;a2;a3];[b0;b1;b2;b3];[c0;c1;c2;c3];[d0;d1;d2;d3]].
Proof.
  intros [Hl Hr].
  destruct g as [|ra [|rb [|rc [|rd [|]]]]]; simpl in Hl; try lia.
  inversion Hr as [|? ? Ha Hr1]; subst.
  inversion Hr1 as [|? ? Hb Hr2]; subst.
  inversion Hr2 as [|? ? Hc Hr3]; subst.
  inversion Hr3 as [|? ? Hd _]; subst.
  destruct (row_of_four _ Ha) as (a0 & a1 & a2 & a3 & ->).
  destruct (row_of_four _ Hb) as (b0 & b1 & b2 & b3 & ->).
  destruct (row_of_four _ Hc) as (c0 & c1 & c2 & c3 & ->).
  destruct (row_of_four _ Hd) as (d0 & d1 & d2 & d3 & ->).
  now exists a0, a1, a2, a3, b0, b1, b2, b3, c0, c1, c2, c3, d0, d1, d2, d3.
Qed.

Ltac grid_cases g Hg :=
  destruct (is_grid_rows g Hg)
    as (? & ? & ? & ? & ? & ? & ? & ? & ? & ? & ? & ? & ? & ? & ? & ? & ->).

Lemma is_grid_intro (a0 a1 a2 a3 b0 b1 b2 b3 c0 c1 c2 c3 d0 d1 d2 d3 : Z) :
  is_grid [[a0;a1;a2;a3];[b0;b1;b2;b3];[c0;c1;c2;c3];[d0;d1;d2;d3]].
Proof. split; [reflexivity | repeat constructor]. Qed.

Lemma pad_length (n : nat) (l : list Z) :
  (length l <= n)%nat -> length (Spec.pad n l) = n.
Proof.
  intros H. unfold Spec.pad. rewrite length_app, repeat_length. lia.
Qed.

Lemma remove_zeros_length (l : list Z) :
  (length (Spec.remove_zeros l) <= length l)%nat.
Proof.
  induction l as [|x t IH]; simpl; [lia|].
  case_bool_decide; simpl; lia.
Qed.

Lemma merge_scan_length (l : list Z) :
  length (fst (Spec.merge_scan l)) = length l.
Proof.
  induction l as [| a | a t IH | a b t Hab IH] using scan_ind;
    try reflexivity.
  - rewrite merge_scan_eq. simpl. now rewrite IH.
  - rewrite merge_scan_ne by exact Hab. cbn [fst length]. now rewrite IH.
Qed.

Lemma compact_left_length (r : list Z) :
  length (Spec.compact_left r) = length r.
Proof.
  unfold Spec.compact_left. apply pad_length.
  etransitivity; [apply remove_zeros_length|].
  rewrite merge_scan_length. apply remove_zeros_length.
Qed.

Lemma pass_is_grid (g : grid) : is_grid g -> is_grid (pass g).
Proof.
  intros [Hl Hr]. split.
  - unfold pass. now rewrite length_map.
  - unfold pass. rewrite Forall_map.
    eapply Forall_impl; [exact Hr|]. simpl. intros r Hlen.
    now rewrite compact_left_length.
Qed.

Lemma transform_is_grid (k : key) (g : grid) :
  is_grid g -> is_grid (Spec.transform k g).
Proof.
  intros Hg. grid_cases g Hg. destruct k; apply is_grid_intro.
Qed.

Lemma inverse_transform_is_grid (k : key) (g : grid) :
  is_grid g -> is_grid (Spec.inverse_transform k g).
Proof.
  intros Hg. grid_cases g Hg. destruct k; apply is_grid_intro.
Qed.

Lemma inverse_transform_transform (k : key) (g : grid) :
  is_grid g -> Spec.inverse_transform k (Spec.transform k g) = g.
Proof. intros Hg. grid_cases g Hg. destruct k; reflexivity. Qed.

Lemma transform_inverse_transform (k : key) (g : grid) :
  is_grid g -> Spec.transform k (Spec.inverse_transform k g) = g.
Proof. intros Hg. grid_cases g Hg. destruct k; reflexivity. Qed.

(** ** Closed forms of the handlers *)

Lemma pass_body_eq (i : nat) (moved : bool) (st : game) :
  length (game_grid st) = 4%nat ->
  pass_body i moved st
  = (if changed (game_grid st) then true else moved,
     Game (pass (game_grid st)) (pass_score (game_grid st) (score st))
       (running st)).
Proof.
  intros Hlen. unfold pass_body. run_monad.
  rewrite move_pass by exact Hlen. reflexivity.
Qed.

Lemma shift_left_eq (st : game) :
  length (game_grid st) = 4%nat ->
  shift_left st
  = (moved3 (game_grid st),
     Game (pass3 (game_grid st)) (pass3_score (game_grid st) (score st))
       (running st)).
Proof.
  intros Hlen. unfold shift_left, range. cbn [seq for_each].
  unfold mbind, M_bind.
  rewrite pass_body_eq by exact Hlen.
  rewrite pass_body_eq by (simpl; unfold pass; now rewrite length_map).
  rewrite pass_body_eq by (simpl; unfold pass; now rewrite !length_map).
  reflexivity.
Qed.

Lemma shift_eq (k : key) (st : game) :
  is_grid (game_grid st) ->
  shift k st
  = (moved3 (Spec.transform k (game_grid st)),
     Game (Spec.inverse_transform k
             (pass3 (Spec.transform k (game_grid st))))
          (pass3_score (Spec.transform k (game_grid st)) (score st))
          (running st)).
Proof.
  intros Hg.
  assert (Hl : length (Spec.transform k (game_grid st)) = 4%nat)
    by (apply transform_is_grid, Hg).
  destruct k; cbn [shift Spec.transform Spec.inverse_transform] in *.
  - unfold shift_up. run_monad. fold shift_left.
    rewrite shift_left_eq by exact Hl. reflexivity.
  - unfold shift_down. run_monad. fold shift_left.
    rewrite shift_left_eq by exact Hl. reflexivity.
  - rewrite shift_left_eq by exact Hl. now destruct st.
  - unfold shift_right. run_monad. fold shift_left.
    rewrite shift_left_eq by exact Hl. reflexivity.
Qed.

(** ** A pass on one row: tiles never increase, and a row without a merge
    left in it is a fixed point *)

Lemma squeeze_nonzero (l : list Z) : Forall (fun x => x <> 0) (Spec.squeeze l).
Proof. apply remove_zeros_nonzero. Qed.

Lemma squeeze_shrinks (l : list Z) :
  (length (Spec.squeeze l) + length (snd (Spec.merge_scan l)) <= length l)%nat.
Proof.
  unfold Spec.squeeze.
  induction l as [| a | a t IH | a b t Hab IH] using scan_ind.
  - simpl. lia.
  - simpl. case_bool_decide; cbn [length] in *; lia.
  - rewrite merge_scan_eq. cbn [fst snd Spec.remove_zeros length].
    rewrite (bool_decide_eq_true_2 (0 = 0)) by reflexivity.
    case_bool_decide; cbn [length] in *; lia.
  - rewrite merge_scan_ne by exact Hab. cbn [fst snd Spec.remove_zeros length].
    case_bool_decide; cbn [length] in *; lia.
Qed.

Lemma merge_scan_no_merge (l : list Z) :
  snd (Spec.merge_scan l) = [] -> fst (Spec.merge_scan l) = l.
Proof.
  induction l as [| a | a t IH | a b t Hab IH] using scan_ind;
    try reflexivity.
  - rewrite merge_scan_eq. discriminate.
  - rewrite merge_scan_ne by exact Hab. cbn [fst snd]. intros H.
    now rewrite IH.
Qed.

Lemma merge_scan_short (l : list Z) :
  (length l <= 1)%nat -> snd (Spec.merge_scan l) = [].
Proof. destruct l as [|a [|b t]]; simpl; intros; try reflexivity; lia. Qed.

Lemma remove_zeros_app (a b : list Z) :
  Spec.remove_zeros (a ++ b) = Spec.remove_zeros a ++ Spec.remove_zeros b.
Proof.
  induction a as [|x t IH]; simpl; [reflexivity|].
  case_bool_decide; simpl; now rewrite IH.
Qed.

Lemma remove_zeros_repeat (n : nat) : Spec.remove_zeros (repeat 0 n) = [].
Proof. induction n; simpl; auto. Qed.

Lemma remove_zeros_pad (n : nat) (l : list Z) :
  Forall (fun x => x <> 0) l -> Spec.remove_zeros (Spec.pad n l) = l.
Proof.
  intros H. unfold Spec.pad.
  now rewrite remove_zeros_app, remove_zeros_repeat, app_nil_r,
    remove_zeros_fixed.
Qed.

Lemma remove_zeros_compact_left (r : list Z) :
  Spec.remove_zeros (Spec.compact_left r)
  = Spec.squeeze (Spec.remove_zeros r).
Proof. unfold Spec.compact_left. apply remove_zeros_pad, squeeze_nonzero. Qed.

(** The number of tiles in a row drops by at least one per merge. *)
Lemma compact_left_tiles (r : list Z) :
  (length (Spec.remove_zeros (Spec.compact_left r)) + length (Spec.merged r)
   <= length (Spec.remove_zeros r))%nat.
Proof. rewrite remove_zeros_compact_left. apply squeeze_shrinks. Qed.

Lemma compact_left_no_merge (r : list Z) :
  Spec.merged r = [] ->
  Spec.compact_left r = Spec.pad (length r) (Spec.remove_zeros r).
Proof.
  unfold Spec.merged, Spec.compact_left, Spec.squeeze. intros H.
  rewrite merge_scan_no_merge by exact H.
  now rewrite remove_zeros_fixed by apply remove_zeros_nonzero.
Qed.

Lemma compact_left_canonical (r : list Z) :
  Spec.pad (length (Spec.compact_left r))
    (Spec.remove_zeros (Spec.compact_left r))
  = Spec.compact_left r.
Proof.
  rewrite remove_zeros_compact_left, compact_left_length. reflexivity.
Qed.

Lemma merged_compact_left (r : list Z) :
  Spec.merged r = [] -> Spec.merged (Spec.compact_left r) = [].
Proof.
  intros H. unfold Spec.merged at 1.
  rewrite remove_zeros_compact_left. unfold Spec.squeeze.
  rewrite merge_scan_no_merge by exact H.
  rewrite remove_zeros_fixed by apply remove_zeros_nonzero. exact H.
Qed.

Lemma compact_left_settled (r : list Z) :
  Spec.merged (Spec.compact_left r) = [] ->
  Spec.compact_left (Spec.compact_left r) = Spec.compact_left r.
Proof.
  intros H. rewrite compact_left_no_merge by exact H.
  apply compact_left_canonical.
Qed.

Lemma compact_left_fixed_merged (r : list Z) :
  Spec.compact_left r = r -> Spec.merged r = [].
Proof.
  intros H. pose proof (compact_left_tiles r) as Ht. rewrite H in Ht.
  destruct (Spec.merged r); [reflexivity | simpl in Ht; lia].
Qed.

Lemma merged_nil_or_fewer (r : list Z) :
  Spec.merged r = []
  \/ (length (Spec.remove_zeros (Spec.compact_left r))
      < length (Spec.remove_zeros r))%nat.
Proof.
  pose proof (compact_left_tiles r) as Ht.
  destruct (Spec.merged r); [now left | right; simpl in Ht; lia].
Qed.

(** Three passes settle a row of four cells. *)
Lemma compact_left_three_settle (r : list Z) :
  (length r <= 4)%nat ->
  Spec.merged
    (Spec.compact_left (Spec.compact_left (Spec.compact_left r))) = [].
Proof.
  intros Hlen.
  pose proof (remove_zeros_length r) as H0.
  destruct (merged_nil_or_fewer r) as [E0|L0];
    [now do 3 apply merged_compact_left|].
  destruct (merged_nil_or_fewer (Spec.compact_left r)) as [E1|L1];
    [now do 2 apply merged_compact_left|].
  destruct (merged_nil_or_fewer (Spec.compact_left (Spec.compact_left r)))
    as [E2|L2]; [now apply merged_compact_left|].
  unfold Spec.merged. apply merge_scan_short. lia.
Qed.

Lemma compact_left_idempotent3 (r : list Z) :
  (length r <= 4)%nat ->
  Spec.compact_left
    (Spec.compact_left (Spec.compact_left (Spec.compact_left r)))
  = Spec.compact_left (Spec.compact_left (Spec.compact_left r)).
Proof. intros H. apply compact_left_settled, compact_left_three_settle, H. Qed.

(** Three passes that give the row back never changed it. *)
Lemma compact_left_three_fixed (r : list Z) :
  Spec.compact_left (Spec.compact_left (Spec.compact_left r)) = r ->
  Spec.compact_left r = r.
Proof.
  intros H.
  pose proof (compact_left_tiles r) as T0.
  pose proof (compact_left_tiles (Spec.compact_left r)) as T1.
  pose proof (compact_left_tiles (Spec.compact_left (Spec.compact_left r)))
    as T2.
  rewrite H in T2.
  assert (E : Spec.merged r = [])
    by (destruct (Spec.merged r); [reflexivity | simpl in T0; lia]).
  rewrite compact_left_no_merge by exact E.
  rewrite <- H at 1 2. rewrite compact_left_canonical. exact H.
Qed.

(** ** A pass on the grid *)

Lemma map_fixed {A : Type} (f : A -> A) (l : list A) :
  map f l = l <-> Forall (fun x => f x = x) l.
Proof.
  induction l as [|x t IH]; simpl.
  - split; [constructor | reflexivity].
  - split.
    + intros H. injection H as Hx Ht. constructor; [exact Hx | now apply IH].
    + intros H. inversion H; subst. f_equal; [assumption | now apply IH].
Qed.

Lemma pass_fixed_merged (g : grid) : pass g = g -> Spec.merged_grid g = [].
Proof.
  unfold pass, Spec.merged_grid. rewrite map_fixed.
  induction 1 as [|r t Hr _ IH]; simpl; [reflexivity|].
  now rewrite compact_left_fixed_merged, IH.
Qed.

Lemma pass_fixed_score (g : grid) (s : Z) : pass g = g -> pass_score g s = s.
Proof. intros H. unfold pass_score. now rewrite pass_fixed_merged. Qed.

Lemma pass3_fixed (g : grid) : pass g = g -> pass3 g = g.
Proof. intros H. unfold pass3. now rewrite !H. Qed.

Lemma pass3_fixed_score (g : grid) (s : Z) :
  pass g = g -> pass3_score g s = s.
Proof.
  intros H. unfold pass3_score. rewrite !H. now rewrite !pass_fixed_score.
Qed.

Lemma pass3_gives_back (g : grid) : pass3 g = g -> pass g = g.
Proof.
  unfold pass3, pass. rewrite !map_map, !map_fixed.
  intros H. eapply Forall_impl; [exact H|].
  intros r Hr. exact (compact_left_three_fixed r Hr).
Qed.

Lemma pass_pass3 (g : grid) : is_grid g -> pass (pass3 g) = pass3 g.
Proof.
  intros [_ Hr]. unfold pass3, pass. rewrite !map_map.
  apply map_ext_Forall. eapply Forall_impl; [exact Hr|].
  simpl. intros r Hlen. apply compact_left_idempotent3. lia.
Qed.

Lemma changed_false (g : grid) : changed g = false <-> pass g = g.
Proof.
  unfold changed, Np.array_equal. rewrite negb_false_iff.
  apply bool_decide_eq_true.
Qed.

Lemma moved3_false (g : grid) : moved3 g = false <-> pass g = g.
Proof.
  unfold moved3. split.
  - intros H. apply changed_false.
    destruct (changed (pass (pass g))); [discriminate|].
    destruct (changed (pass g)); [discriminate|].
    now destruct (changed g).
  - intros H. rewrite !H.
    apply changed_false in H. now rewrite H.
Qed.

Lemma moved3_false_pass3 (g : grid) : moved3 g = false <-> pass3 g = g.
Proof.
  rewrite moved3_false. split; [apply pass3_fixed | apply pass3_gives_back].
Qed.

(** ** The spawn and the end-of-game test leave the score alone *)

Lemma add_random_tile_score (pick val : nat) (st : game) :
  score (snd (add_random_tile pick val st)) = score st
  /\ running (snd (add_random_tile pick val st)) = running st.
Proof.
  unfold add_random_tile. run_monad.
  destruct (empty_cells (game_grid st)); [now split|].
  destruct (choice pick _ _). now split.
Qed.

Lemma can_move_pure (st : game) : snd (can_move st) = st.
Proof. reflexivity. Qed.

Lemma after_move_score (pick val : nat) (st : game) :
  score (snd (after_move pick val st)) = score st.
Proof.
  unfold after_move. unfold mbind at 1, M_bind at 1.
  destruct (add_random_tile pick val st) as [u st1] eqn:E.
  pose proof (add_random_tile_score pick val st) as [Hs _].
  rewrite E in Hs. simpl in Hs. unfold mbind, M_bind.
  destruct (can_move st1) as [ok st2] eqn:E2.
  pose proof (can_move_pure st1) as Hp. rewrite E2 in Hp. simpl in Hp.
  subst st2. destruct ok; simpl; exact Hs.
Qed.

Lemma handler_eq (k : key) (pick val : nat) (st : game) :
  handler k pick val st
  = (if fst (shift k st) then after_move pick val (snd (shift k st))
     else (tt, snd (shift k st))).
Proof.
  destruct k; cbn [handler shift];
    unfold move_up, move_down, move_left, move_right, mbind, M_bind;
    match goal with |- context [let '(_, _) := ?s st in _] =>
      destruct (s st) as [[] st'] end; reflexivity.
Qed.

(** ** Arithmetic that stays inside the 64-bit range *)

Lemma wrap_small (z : Z) : Int64.in_range z -> Int64.wrap z = z.
Proof.
  unfold Int64.in_range, Int64.min_signed, Int64.max_signed, Int64.wrap,
    Int64.modulus.
  intros H. rewrite Z.mod_small; lia.
Qed.

Lemma add_small (a b : Z) : Int64.in_range (a + b) -> Int64.add a b = a + b.
Proof. apply wrap_small. Qed.

Lemma doubled_small (v : Z) :
  - 2 ^ 62 <= v < 2 ^ 62 -> Spec.doubled v = 2 * v.
Proof.
  intros H. unfold Spec.doubled, Int64.mul. rewrite wrap_small; [lia|].
  unfold Int64.in_range, Int64.min_signed, Int64.max_signed. lia.
Qed.

(** * The claims *)

(** ** C1: a Left move on a row [2,2,2,2] *)

(** C1, as stated, fails: a Left move on the grid whose first row is
    [2,2,2,2] does give the row [8,0,0,0], but the first pass merges two
    pairs (4 and 4) and the second pass merges the result (8), so the score
    grows by 16 and not by 12. *)
Lemma left_2222_score_is_not_12 :
  game_grid (snd (move_left 3 0
    (Game [[2;2;2;2];[0;0;0;0];[0;0;0;0];[0;0;0;0]] 0 true)))
    !! 0%nat = Some [8;0;0;0]
  /\ score (snd (move_left 3 0
       (Game [[2;2;2;2];[0;0;0;0];[0;0;0;0];[0;0;0;0]] 0 true))) = 0 + 16
  /\ score (snd (move_left 3 0
       (Game [[2;2;2;2];[0;0;0;0];[0;0;0;0];[0;0;0;0]] 0 true))) <> 0 + 12.
Proof. vm_compute. repeat split; congruence. Qed.

(** C1, amended: under the triple-pass rule the three passes of a Left move
    turn a row [2,2,2,2] (at any of the four row positions of an otherwise
    empty grid) into [8,0,0,0], report a change, and add exactly
    16 = 4 + 4 + 8 to the score. *)
Theorem left_2222_gives_8_and_adds_16 (i : nat) (s : Z) (r : bool) :
  (i < 4)%nat -> 0 <= s <= Int64.max_signed - 16 ->
  shift_left (Game (<[i := [2;2;2;2]]> zeros44) s r)
  = (true, Game (<[i := [8;0;0;0]]> zeros44) (s + 16) r).
Proof.
  intros Hi Hs. unfold Int64.max_signed in Hs.
  rewrite shift_left_eq
    by (cbn [game_grid]; rewrite length_insert; reflexivity).
  cbn [game_grid score running].
  assert (Hadd : Int64.add (Int64.add (Int64.add s 4) 4) 8 = s + 16).
  { rewrite (add_small s 4), (add_small (s + 4) 4), (add_small (s + 4 + 4) 8);
      unfold Int64.in_range, Int64.min_signed, Int64.max_signed; lia. }
  destruct i as [|[|[|[|]]]]; try lia;
    (replace (moved3 _) with true by (vm_compute; reflexivity));
    apply (f_equal (pair true));
    (apply (f_equal2 (fun g s => Game g s r)); [vm_compute; reflexivity|]);
    unfold pass3_score, pass_score;
    repeat match goal with
           | |- context [Spec.merged_grid ?g] =>
               let v := eval vm_compute in (Spec.merged_grid g) in
               replace (Spec.merged_grid g) with v by (vm_compute; reflexivity)
           end;
    exact Hadd.
Qed.

Lemma left_2222_gives_8_and_adds_16_witness :
  shift_left (Game (<[0%nat := [2;2;2;2]]> zeros44) 100 true)
  = (true, Game (<[0%nat := [8;0;0;0]]> zeros44) (100 + 16) true).
Proof.
  apply (left_2222_gives_8_and_adds_16 0 100 true);
    [lia | unfold Int64.max_signed; lia].
Defined.

(** ** C2: one pass of [move] *)

Lemma wrap_in_range (z : Z) : Int64.in_range (Int64.wrap z).
Proof.
  unfold Int64.in_range, Int64.min_signed, Int64.max_signed, Int64.wrap,
    Int64.modulus.
  pose proof (Z.mod_pos_bound (z + 2 ^ 63) (2 ^ 64)). lia.
Qed.

Lemma wrap_wrap_add (a b : Z) :
  Int64.wrap (Int64.wrap a + b) = Int64.wrap (a + b).
Proof.
  unfold Int64.wrap, Int64.modulus. f_equal.
  replace ((a + 2 ^ 63) mod 2 ^ 64 - 2 ^ 63 + b + 2 ^ 63)
    with ((a + 2 ^ 63) mod 2 ^ 64 + b) by lia.
  rewrite Z.add_mod_idemp_l by lia. f_equal. lia.
Qed.

Lemma add_all_wrap (ms : list Z) (s : Z) :
  Int64.wrap (Spec.add_all s ms) = Int64.wrap (s + fold_right Z.add 0 ms).
Proof.
  revert s. induction ms as [|m ms IH]; intros s.
  - cbn. f_equal. lia.
  - change (Spec.add_all s (m :: ms)) with (Spec.add_all (Int64.add s m) ms).
    rewrite IH. unfold Int64.add. rewrite wrap_wrap_add.
    cbn [fold_right]. f_equal. lia.
Qed.

Lemma add_all_in_range (ms : list Z) (s : Z) :
  Int64.in_range s -> Int64.in_range (Spec.add_all s ms).
Proof.
  revert s. induction ms as [|m ms IH]; intros s Hs; [exact Hs|].
  change (Spec.add_all s (m :: ms)) with (Spec.add_all (Int64.add s m) ms).
  apply IH, wrap_in_range.
Qed.

(** Sums that stay in range are plain sums, whatever the partial sums do. *)
Lemma add_all_plain (ms : list Z) (s : Z) :
  Int64.in_range s -> Int64.in_range (s + fold_right Z.add 0 ms) ->
  Spec.add_all s ms = s + fold_right Z.add 0 ms.
Proof.
  intros Hs Hsum.
  rewrite <- (wrap_small (Spec.add_all s ms))
    by (apply add_all_in_range, Hs).
  rewrite add_all_wrap. apply wrap_small, Hsum.
Qed.

Lemma merge_pairs_eq (a : Z) (t : list Z) :
  Spec.merge_pairs (a :: a :: t)
  = (Spec.twice a :: 0 :: fst (Spec.merge_pairs t),
     Spec.twice a :: snd (Spec.merge_pairs t)).
Proof.
  simpl. rewrite bool_decide_eq_true_2 by reflexivity.
  destruct (Spec.merge_pairs t); reflexivity.
Qed.

Lemma merge_pairs_ne (a b : Z) (t : list Z) :
  a <> b ->
  Spec.merge_pairs (a :: b :: t)
  = (a :: fst (Spec.merge_pairs (b :: t)), snd (Spec.merge_pairs (b :: t))).
Proof.
  intros Hab. cbn [Spec.merge_pairs].
  rewrite bool_decide_eq_false_2 by exact Hab.
  destruct t as [|c t'].
  - reflexivity.
  - destruct (bool_decide (b = c)).
    + destruct (Spec.merge_pairs t'); reflexivity.
    + destruct (Spec.merge_pairs (c :: t')); reflexivity.
Qed.

Lemma merge_scan_plain (l : list Z) :
  Forall doubles l -> Spec.merge_scan l = Spec.merge_pairs l.
Proof.
  induction l as [| |a t IH|a b t Hab IH] using scan_ind; intros Hl.
  - reflexivity.
  - reflexivity.
  - rewrite merge_scan_eq, merge_pairs_eq.
    inversion Hl as [|? ? Ha Ht]; subst.
    inversion Ht as [|? ? _ Ht']; subst.
    rewrite (IH Ht'), (doubled_small a Ha). reflexivity.
  - rewrite merge_scan_ne, merge_pairs_ne by exact Hab.
    inversion Hl as [|? ? _ Ht]; subst.
    rewrite (IH Ht). reflexivity.
Qed.

Lemma remove_zeros_Forall (P : Z -> Prop) (l : list Z) :
  Forall P l -> Forall P (Spec.remove_zeros l).
Proof.
  induction 1 as [|x l Hx _ IH]; simpl; [constructor|].
  case_bool_decide; [exact IH|]. constructor; assumption.
Qed.

Lemma compact_left_plain (r : list Z) :
  Forall doubles r ->
  Spec.compact_left r = Spec.compact_row r
  /\ Spec.merged r = Spec.merged_tiles r.
Proof.
  intros Hr.
  unfold Spec.compact_left, Spec.squeeze, Spec.compact_row, Spec.merged,
    Spec.merged_tiles.
  rewrite merge_scan_plain by (apply remove_zeros_Forall, Hr).
  split; reflexivity.
Qed.

Lemma pass_plain (g : grid) :
  Forall (Forall doubles) g ->
  pass g = map Spec.compact_row g
  /\ Spec.merged_grid g = concat (map Spec.merged_tiles g).
Proof.
  unfold pass, Spec.merged_grid.
  induction 1 as [|r g Hr _ [IH1 IH2]]; [split; reflexivity|].
  destruct (compact_left_plain r Hr) as [E1 E2].
  cbn [map concat]. rewrite E1, E2, IH1, IH2. split; reflexivity.
Qed.

(** C2, as stated for every 4x4 grid, fails where doubling leaves the range
    of the cells: on the row [2^62, 2^62, 0, 0] the merged cell is not the
    doubled value [2^63] but [-2^63], and that negative number is what the
    score receives. *)
Lemma move_wraps_at_2_62 :
  move [[4611686018427387904; 4611686018427387904; 0; 0];
        [0;0;0;0]; [0;0;0;0]; [0;0;0;0]] (Game zeros44 0 true)
  = ([[-9223372036854775808; 0; 0; 0]; [0;0;0;0]; [0;0;0;0]; [0;0;0;0]],
     Game zeros44 (-9223372036854775808) true)
  /\ (map Spec.compact_row
        [[4611686018427387904; 4611686018427387904; 0; 0];
         [0;0;0;0]; [0;0;0;0]; [0;0;0;0]],
      with_score (Game zeros44 0 true)
        (0 + Spec.gain
               [[4611686018427387904; 4611686018427387904; 0; 0];
                [0;0;0;0]; [0;0;0;0]; [0;0;0;0]]))
     = ([[9223372036854775808; 0; 0; 0]; [0;0;0;0]; [0;0;0;0]; [0;0;0;0]],
        Game zeros44 9223372036854775808 true)
  /\ move [[4611686018427387904; 4611686018427387904; 0; 0];
           [0;0;0;0]; [0;0;0;0]; [0;0;0;0]] (Game zeros44 0 true)
     <> (map Spec.compact_row
           [[4611686018427387904; 4611686018427387904; 0; 0];
            [0;0;0;0]; [0;0;0;0]; [0;0;0;0]],
         with_score (Game zeros44 0 true)
           (0 + Spec.gain
                  [[4611686018427387904; 4611686018427387904; 0; 0];
                   [0;0;0;0]; [0;0;0;0]; [0;0;0;0]])).
Proof. vm_compute. repeat split; congruence. Qed.

(** C2, amended: on every 4x4 grid whose cells can be doubled within the
    64-bit range, and from a score that the pass keeps in that range, [move]
    returns the grid whose rows are the compact-left primitive applied to
    each row on its own (zeros removed in order, the left-to-right scan that
    merges an equal adjacent pair into twice the left cell and a zero and
    resumes after the pair, zeros removed again, zero padding), and adds to
    the score the sum of the doubled values of all rows. *)
Theorem move_is_compact_left (g : grid) (st : game) :
  is_grid g ->
  Forall (Forall (fun v => - 2 ^ 62 <= v < 2 ^ 62)) g ->
  - 2 ^ 63 <= score st < 2 ^ 63 ->
  - 2 ^ 63 <= score st + Spec.gain g < 2 ^ 63 ->
  move g st
  = (map Spec.compact_row g, with_score st (score st + Spec.gain g)).
Proof.
  intros [Hl _] Hcells Hs Hsum.
  rewrite move_pass by exact Hl. unfold pass_score.
  destruct (pass_plain g Hcells) as [-> ->].
  rewrite add_all_plain; [reflexivity| |];
    unfold Int64.in_range, Int64.min_signed, Int64.max_signed;
    [|fold (Spec.gain g)]; lia.
Qed.

Lemma move_is_compact_left_witness :
  move [[2;2;4;0];[0;2;0;2];[4;4;4;4];[2;4;8;16]] (Game zeros44 100 true)
  = ([[4;4;0;0];[4;0;0;0];[8;8;0;0];[2;4;8;16]], Game zeros44 124 true).
Proof.
  refine (eq_trans
    (move_is_compact_left [[2;2;4;0];[0;2;0;2];[4;4;4;4];[2;4;8;16]]
       (Game zeros44 100 true) _ _ _ _) eq_refl).
  - apply is_grid_intro.
  - repeat (apply List.Forall_cons || apply List.Forall_nil); lia.
  - cbn [score]. lia.
  - vm_compute. split; congruence.
Defined.

(** ** C3: the four directions *)

Lemma to_left_transform (k : key) (g : grid) :
  is_grid g -> Spec.to_left k g = Spec.transform k g.
Proof. intros Hg. grid_cases g Hg. destruct k; reflexivity. Qed.

Lemma from_left_inverse_transform (k : key) (g : grid) :
  is_grid g -> Spec.from_left k g = Spec.inverse_transform k g.
Proof. intros Hg. grid_cases g Hg. destruct k; reflexivity. Qed.

(** C3: for every 4x4 grid, each handler does what the Left handler does on
    the transformed grid (Up: a quarter turn counterclockwise, "rotate 90";
    Down: "rotate 270"; Right: the horizontal flip; Left: nothing) followed
    by the inverse transform (Up: rotate 270; Down: rotate 90; Right: the
    flip), the transforms being given cell by cell; the grid it leaves is
    the inverse transform of three compact-left passes over the transformed
    grid; the inverse transform undoes the transform; and rotating by 270 is
    rotating by 90 three times. *)
Theorem directions_reduce_to_left (k : key) (st : game) :
  is_grid (game_grid st) ->
  shift k st
  = (let '(moved, st') :=
       shift Left (with_grid st (Spec.to_left k (game_grid st))) in
     (moved, with_grid st' (Spec.from_left k (game_grid st'))))
  /\ game_grid (snd (shift k st))
     = Spec.from_left k
         (pass (pass (pass (Spec.to_left k (game_grid st)))))
  /\ Spec.from_left k (Spec.to_left k (game_grid st)) = game_grid st
  /\ Spec.rotate270 (game_grid st)
     = Spec.rotate90 (Spec.rotate90 (Spec.rotate90 (game_grid st))).
Proof.
  intros Hg.
  assert (Ht : is_grid (Spec.transform k (game_grid st)))
    by apply transform_is_grid, Hg.
  assert (Hp : is_grid (pass3 (Spec.transform k (game_grid st))))
    by (do 3 apply pass_is_grid; exact Ht).
  rewrite to_left_transform by exact Hg.
  split; [|split; [|split]].
  - rewrite shift_eq by exact Hg.
    cbn [shift]. rewrite shift_left_eq by apply Ht.
    cbn [with_grid game_grid score running].
    rewrite from_left_inverse_transform by exact Hp. reflexivity.
  - rewrite shift_eq by exact Hg. cbn [snd game_grid].
    symmetry. apply from_left_inverse_transform, Hp.
  - rewrite from_left_inverse_transform by exact Ht.
    apply inverse_transform_transform, Hg.
  - grid_cases (game_grid st) Hg. reflexivity.
Qed.

Lemma directions_reduce_to_left_witness :
  shift Up (Game [[2;0;0;4];[2;0;0;0];[4;0;0;0];[8;0;0;2]] 0 true)
  = (true, Game [[16;0;0;4];[0;0;0;2];[0;0;0;0];[0;0;0;0]] 28 true)
  /\ Spec.rotate90 [[2;0;0;4];[2;0;0;0];[4;0;0;0];[8;0;0;2]]
     = [[4;0;0;2];[0;0;0;0];[0;0;0;0];[2;2;4;8]].
Proof.
  split; [|reflexivity].
  rewrite (proj1 (directions_reduce_to_left Up
    (Game [[2;0;0;4];[2;0;0;0];[4;0;0;0];[8;0;0;2]] 0 true)
    (is_grid_intro 2 0 0 4 2 0 0 0 4 0 0 0 8 0 0 2))).
  vm_compute. reflexivity.
Defined.

(** ** C4: the flag [moved] *)

(** C4: for every 4x4 grid and every direction, the handler's flag [moved]
    is true exactly when the grid it leaves, back in its original
    orientation, differs from the grid it started from. *)
Theorem moved_iff_grid_differs (k : key) (st : game) :
  is_grid (game_grid st) ->
  fst (shift k st) = true <-> game_grid (snd (shift k st)) <> game_grid st.
Proof.
  intros Hg. rewrite shift_eq by exact Hg. cbn [fst snd game_grid].
  pose proof (transform_is_grid k _ Hg) as Ht.
  rewrite <- not_false_iff_true, moved3_false_pass3. split.
  - intros Hne Heq. apply Hne.
    rewrite <- Heq at 2.
    rewrite transform_inverse_transform; [reflexivity|].
    now do 3 apply pass_is_grid.
  - intros Hne Heq. apply Hne. fold (pass3 (Spec.transform k (game_grid st))).
    rewrite Heq. apply inverse_transform_transform, Hg.
Qed.

Lemma moved_iff_grid_differs_witness :
  fst (shift Down (Game [[2;0;0;0];[2;0;0;0];[4;0;0;0];[8;0;0;2]] 0 true))
    = true
  <-> game_grid (snd (shift Down
        (Game [[2;0;0;0];[2;0;0;0];[4;0;0;0];[8;0;0;2]] 0 true)))
      <> [[2;0;0;0];[2;0;0;0];[4;0;0;0];[8;0;0;2]].
Proof.
  apply (moved_iff_grid_differs Down
    (Game [[2;0;0;0];[2;0;0;0];[4;0;0;0];[8;0;0;2]] 0 true)).
  apply is_grid_intro.
Defined.

(** ** C5: a second move in the same direction *)

(** C5: for every 4x4 grid and every direction, running the three passes of
    a handler again on the state the first run left (no tile spawned in
    between) reports [moved = False] and leaves grid and score as they
    were. *)
Theorem second_move_changes_nothing (k : key) (st : game) :
  is_grid (game_grid st) ->
  shift k (snd (shift k st)) = (false, snd (shift k st)).
Proof.
  intros Hg. rewrite (shift_eq k st Hg). cbn [snd].
  pose proof (transform_is_grid k _ Hg) as Ht.
  set (x := Spec.transform k (game_grid st)) in *.
  assert (Hx : is_grid (pass3 x)) by (now do 3 apply pass_is_grid).
  rewrite shift_eq
    by (cbn [game_grid]; apply inverse_transform_is_grid, Hx).
  cbn [game_grid score running].
  rewrite transform_inverse_transform by exact Hx.
  pose proof (pass_pass3 x Ht) as Hfix.
  rewrite (proj2 (moved3_false _) Hfix), pass3_fixed by exact Hfix.
  now rewrite pass3_fixed_score by exact Hfix.
Qed.

Lemma second_move_changes_nothing_witness :
  shift Right (snd (shift Right
    (Game [[2;2;4;8];[0;0;0;0];[2;0;2;4];[4;4;4;4]] 0 true)))
  = (false, snd (shift Right
      (Game [[2;2;4;8];[0;0;0;0];[2;0;2;4];[4;4;4;4]] 0 true))).
Proof.
  apply (second_move_changes_nothing Right
    (Game [[2;2;4;8];[0;0;0;0];[2;0;2;4];[4;4;4;4]] 0 true)).
  apply is_grid_intro.
Defined.

(** ** C10: a move that reports no change *)

(** C10: for every 4x4 grid and every direction, when the three passes
    report [moved = False] the handler leaves the whole state as it was:
    the grid (the rotation or flip exactly undone), the score, and no tile
    is spawned, since [after_move] is not called. *)
Theorem unmoved_is_noop (k : key) (pick val : nat) (st : game) :
  is_grid (game_grid st) ->
  fst (shift k st) = false ->
  snd (shift k st) = st
  /\ handler k pick val st = (tt, st)
  /\ press k pick val st = st.
Proof.
  intros Hg Hm.
  assert (Hs : snd (shift k st) = st).
  { rewrite shift_eq in Hm |- * by exact Hg. cbn [fst snd] in *.
    apply moved3_false in Hm.
    rewrite pass3_fixed, pass3_fixed_score by exact Hm.
    rewrite inverse_transform_transform by exact Hg. now destruct st. }
  assert (Hh : handler k pick val st = (tt, st))
    by (rewrite handler_eq, Hm, Hs; reflexivity).
  repeat split; [exact Hs | exact Hh |].
  unfold press. rewrite Hh. now destruct (running st).
Qed.

Lemma unmoved_is_noop_witness :
  snd (shift Up (Game [[2;4;2;4];[4;0;0;0];[0;0;0;0];[0;0;0;0]] 7 true))
  = Game [[2;4;2;4];[4;0;0;0];[0;0;0;0];[0;0;0;0]] 7 true
  /\ handler Up 5 1
       (Game [[2;4;2;4];[4;0;0;0];[0;0;0;0];[0;0;0;0]] 7 true)
     = (tt, Game [[2;4;2;4];[4;0;0;0];[0;0;0;0];[0;0;0;0]] 7 true)
  /\ press Up 5 1 (Game [[2;4;2;4];[4;0;0;0];[0;0;0;0];[0;0;0;0]] 7 true)
     = Game [[2;4;2;4];[4;0;0;0];[0;0;0;0];[0;0;0;0]] 7 true.
Proof.
  apply (unmoved_is_noop Up 5 1
    (Game [[2;4;2;4];[4;0;0;0];[0;0;0;0];[0;0;0;0]] 7 true)).
  - apply is_grid_intro.
  - vm_compute. reflexivity.
Defined.

(** ** C6: the end-of-game test *)

Lemma can_move_true (g : grid) (s : Z) (r : bool) :
  fst (can_move (Game g s r)) = true <->
  exists i j : nat, (i < 4)%nat /\ (j < 4)%nat /\
    (cell g i j = 0
     \/ ((j < 3)%nat /\ cell g i j = cell g i (j + 1))
     \/ ((i < 3)%nat /\ cell g i j = cell g (i + 1) j)).
Proof.
  unfold can_move, mbind, M_bind, mret, M_ret, get_grid.
  cbn [fst game_grid]. rewrite existsb_exists. split.
  - intros (i & Hi & H). apply existsb_exists in H as (j & Hj & H).
    exists i, j. unfold range in *. apply in_seq in Hi, Hj.
    repeat split; try lia.
    apply orb_true_iff in H as [H|H];
      [apply orb_true_iff in H as [H|H]|].
    + left. now apply Z.eqb_eq.
    + right; left. apply andb_true_iff in H as [H1 H2].
      apply Nat.ltb_lt in H1. apply Z.eqb_eq in H2. now split.
    + right; right. apply andb_true_iff in H as [H1 H2].
      apply Nat.ltb_lt in H1. apply Z.eqb_eq in H2. now split.
  - intros (i & j & Hi & Hj & H). exists i. split.
    { unfold range. apply in_seq. lia. }
    apply existsb_exists. exists j. split.
    { unfold range. apply in_seq. lia. }
    destruct H as [H|[[H1 H2]|[H1 H2]]].
    + apply Z.eqb_eq in H. now rewrite H.
    + apply Nat.ltb_lt in H1. apply Z.eqb_eq in H2.
      rewrite H1, H2. simpl. now rewrite orb_true_r.
    + apply Nat.ltb_lt in H1. apply Z.eqb_eq in H2.
      rewrite H1, H2. simpl. now rewrite orb_true_r.
Qed.

(** C6: [can_move] returns [False] (the status is Over) exactly when every
    cell is non-zero and no cell equals its right or lower neighbour, and it
    leaves the state as it is; it returns [False] on the checkerboard grid
    [[2,4,2,4],[4,2,4,2],[2,4,2,4],[4,2,4,2]] and [True] on that grid with
    any one cell set to 0. *)
Theorem can_move_false_iff_over (st : game) :
  is_grid (game_grid st) ->
  (fst (can_move st) = false <-> Spec.over (game_grid st))
  /\ snd (can_move st) = st
  /\ fst (can_move (with_grid st checkerboard)) = false
  /\ (forall i j : nat, (i < 4)%nat -> (j < 4)%nat ->
        fst (can_move (with_grid st (set_cell checkerboard i j 0))) = true).
Proof.
  intros _. split; [|split; [reflexivity|split]].
  - destruct st as [g s r]. cbn [game_grid].
    rewrite <- not_true_iff_false, can_move_true. unfold Spec.over. split.
    + intros Hn i j Hi Hj. repeat split.
      * intros E. apply Hn. exists i, j. tauto.
      * intros Hj3 E. apply Hn. exists i, j. tauto.
      * intros Hi3 E. apply Hn. exists i, j. tauto.
    + intros Ho (i & j & Hi & Hj & H).
      destruct (Ho i j Hi Hj) as (H0 & H1 & H2).
      destruct H as [H|[[Hlt H]|[Hlt H]]]; [now apply H0| |].
      * exact (H1 Hlt H).
      * exact (H2 Hlt H).
  - reflexivity.
  - intros i j Hi Hj.
    destruct i as [|[|[|[|]]]]; try lia;
      destruct j as [|[|[|[|]]]]; try lia; reflexivity.
Qed.

Lemma can_move_false_iff_over_witness :
  (fst (can_move (Game checkerboard 0 true)) = false <-> Spec.over checkerboard)
  /\ snd (can_move (Game checkerboard 0 true)) = Game checkerboard 0 true
  /\ fst (can_move (with_grid (Game checkerboard 0 true) checkerboard)) = false
  /\ (forall i j : nat, (i < 4)%nat -> (j < 4)%nat ->
        fst (can_move (with_grid (Game checkerboard 0 true)
                         (set_cell checkerboard i j 0))) = true).
Proof.
  apply (can_move_false_iff_over (Game checkerboard 0 true)), is_grid_intro.
Defined.

(** ** Cells, updates, and sums over the cells *)

Lemma nth_insert_eq {A : Type} (l : list A) (i : nat) (x d : A) :
  (i < length l)%nat -> nth i (<[i := x]> l) d = x.
Proof.
  revert i. induction l as [|y t IH]; intros [|i] H; simpl in *;
    try lia; [reflexivity | apply IH; lia].
Qed.

Lemma nth_insert_ne {A : Type} (l : list A) (i i' : nat) (x d : A) :
  i <> i' -> nth i' (<[i := x]> l) d = nth i' l d.
Proof.
  revert i i'. induction l as [|y t IH]; intros [|i] [|i'] H; simpl;
    try reflexivity; try congruence.
  apply IH. congruence.
Qed.

Lemma cell_set_cell_eq (g : grid) (i j : nat) (v : Z) :
  is_grid g -> (i < 4)%nat -> (j < 4)%nat -> cell (set_cell g i j v) i j = v.
Proof.
  intros [Hl Hr] Hi Hj. unfold cell, set_cell.
  rewrite nth_insert_eq by lia. apply nth_insert_eq.
  rewrite List.Forall_forall in Hr. rewrite (Hr (nth i g [])); [lia|].
  apply nth_In. lia.
Qed.

Lemma cell_set_cell_ne (g : grid) (i j i' j' : nat) (v : Z) :
  (i', j') <> (i, j) -> cell (set_cell g i j v) i' j' = cell g i' j'.
Proof.
  intros Hne. unfold cell, set_cell.
  destruct (decide (i = i')) as [<-|Hi].
  - destruct (decide (i < length g)%nat) as [Hlt|Hge].
    + rewrite nth_insert_eq by exact Hlt. apply nth_insert_ne. congruence.
    + rewrite list_insert_ge by lia. reflexivity.
  - now rewrite nth_insert_ne by exact Hi.
Qed.

Lemma concat_set_cell (g : grid) (i j : nat) (v : Z) :
  is_grid g -> (i < 4)%nat -> (j < 4)%nat ->
  concat (set_cell g i j v) = <[(4 * i + j)%nat := v]> (concat g)
  /\ concat g !! (4 * i + j)%nat = Some (cell g i j).
Proof.
  intros Hg Hi Hj. grid_cases g Hg.
  destruct i as [|[|[|[|]]]]; try lia;
    destruct j as [|[|[|[|]]]]; try lia; split; reflexivity.
Qed.

Lemma total_insert (phi : Z -> Z) (l : list Z) (n : nat) (x v : Z) :
  l !! n = Some x -> total phi (<[n := v]> l) = total phi l - phi x + phi v.
Proof.
  revert n. induction l as [|y t IH]; intros [|n] H; simpl in *;
    try discriminate.
  - injection H as ->. lia.
  - rewrite (IH n H). lia.
Qed.

Lemma total_app (phi : Z -> Z) (a b : list Z) :
  total phi (a ++ b) = total phi a + total phi b.
Proof. induction a as [|x t IH]; simpl; [reflexivity | rewrite IH; lia]. Qed.

Lemma total_bounds (phi : Z -> Z) (lo hi : Z) (l : list Z) :
  Forall (fun x => lo <= phi x <= hi) l ->
  lo * Z.of_nat (length l) <= total phi l <= hi * Z.of_nat (length l).
Proof.
  induction 1 as [|x t Hx _ IH]; simpl length; simpl total; [lia|].
  rewrite Nat2Z.inj_succ. lia.
Qed.

Lemma occupied_total (g : grid) :
  Z.of_nat (Spec.occupied g)
  = total (fun x => if x =? 0 then 0 else 1) (concat g).
Proof.
  unfold Spec.occupied, Np.nonzero.
  induction (concat g) as [|x t IH]; simpl; [reflexivity|].
  destruct (x =? 0); simpl; lia.
Qed.

Lemma is_grid_cells (g : grid) : is_grid g -> length (concat g) = 16%nat.
Proof. intros Hg. grid_cases g Hg; reflexivity. Qed.

Lemma set_cell_is_grid (g : grid) (i j : nat) (v : Z) :
  is_grid g -> is_grid (set_cell g i j v).
Proof.
  intros [Hl Hr]. unfold set_cell. split.
  - now rewrite length_insert.
  - destruct (decide (i < length g)%nat) as [Hlt|Hge].
    + apply Forall_insert; [exact Hr|]. rewrite length_insert.
      rewrite List.Forall_forall in Hr. apply Hr, nth_In, Hlt.
    + now rewrite list_insert_ge by lia.
Qed.

(** ** C8: the tile spawn *)

Lemma empty_cells_In (g : grid) (i j : nat) :
  In (i, j) (empty_cells g)
  <-> (i < 4)%nat /\ (j < 4)%nat /\ cell g i j = 0.
Proof.
  unfold empty_cells, range. rewrite filter_In, in_flat_map. split.
  - intros [(i' & Hi & Hin) Hz]. apply in_map_iff in Hin as (j' & E & Hj).
    injection E as -> ->. apply in_seq in Hi, Hj.
    apply Z.eqb_eq in Hz. lia.
  - intros (Hi & Hj & Hz). split; [|now apply Z.eqb_eq].
    exists i. split; [apply in_seq; lia|].
    apply in_map_iff. exists j. split; [reflexivity | apply in_seq; lia].
Qed.

Lemma choice_In {A : Type} (k : nat) (l : list A) (d : A) :
  l <> [] -> In (choice k l d) l.
Proof.
  intros Hl. unfold choice. apply nth_In.
  apply Nat.mod_upper_bound. destruct l; [congruence | simpl; lia].
Qed.

Lemma choice_2_4 (k : nat) : choice k [2; 4] 0 = 2 \/ choice k [2; 4] 0 = 4.
Proof.
  pose proof (choice_In k [2; 4] 0) as H.
  destruct H as [H|[H|[]]]; [discriminate | now left | now right].
Qed.

Lemma add_random_tile_cases (pick val : nat) (st : game) :
  (empty_cells (game_grid st) = [] /\ add_random_tile pick val st = (tt, st))
  \/ (exists (i j : nat) (v : Z),
        In (i, j) (empty_cells (game_grid st)) /\ (v = 2 \/ v = 4)
        /\ add_random_tile pick val st
           = (tt, with_grid st (set_cell (game_grid st) i j v))).
Proof.
  unfold add_random_tile, mbind, M_bind, get_grid.
  destruct (empty_cells (game_grid st)) as [|c l] eqn:E.
  - left. split; reflexivity.
  - right. pose proof (choice_In pick (c :: l) (0%nat, 0%nat)) as Hin.
    destruct (choice pick (c :: l) (0%nat, 0%nat)) as [i j].
    exists i, j, (choice val [2; 4] 0). split; [|split].
    + apply Hin. discriminate.
    + apply choice_2_4.
    + reflexivity.
Qed.

Lemma occupied_set_cell (g : grid) (i j : nat) (v : Z) :
  is_grid g -> (i < 4)%nat -> (j < 4)%nat -> cell g i j = 0 -> v <> 0 ->
  Spec.occupied (set_cell g i j v) = S (Spec.occupied g).
Proof.
  intros Hg Hi Hj Hz Hv. apply Nat2Z.inj.
  rewrite Nat2Z.inj_succ, !occupied_total.
  destruct (concat_set_cell g i j v Hg Hi Hj) as [-> Hlk].
  rewrite (total_insert _ _ _ _ _ Hlk), Hz. simpl.
  destruct (Z.eqb_spec v 0); [contradiction | lia].
Qed.

(** C8: when the grid has an empty cell, [add_random_tile] writes 2 or 4
    into one of the cells that hold 0, so that one more cell is occupied
    and every other cell keeps its value; when no cell is empty it leaves
    the state as it is.  Score and [running] are never touched. *)
Theorem add_random_tile_spec (pick val : nat) (st : game) :
  is_grid (game_grid st) ->
  ((exists i j : nat, (i < 4)%nat /\ (j < 4)%nat
                      /\ cell (game_grid st) i j = 0) ->
   exists (i j : nat) (v : Z),
     (i < 4)%nat /\ (j < 4)%nat /\ cell (game_grid st) i j = 0
     /\ (v = 2 \/ v = 4)
     /\ snd (add_random_tile pick val st)
        = with_grid st (set_cell (game_grid st) i j v)
     /\ cell (game_grid (snd (add_random_tile pick val st))) i j = v
     /\ (forall i' j' : nat, (i', j') <> (i, j) ->
           cell (game_grid (snd (add_random_tile pick val st))) i' j'
           = cell (game_grid st) i' j')
     /\ Spec.occupied (game_grid (snd (add_random_tile pick val st)))
        = S (Spec.occupied (game_grid st)))
  /\ ((forall i j : nat, (i < 4)%nat -> (j < 4)%nat ->
         cell (game_grid st) i j <> 0) ->
      snd (add_random_tile pick val st) = st).
Proof.
  intros Hg.
  destruct (add_random_tile_cases pick val st)
    as [[Hnil ->]|(i & j & v & Hin & Hv & ->)]; cbn [snd].
  - split; [|reflexivity].
    intros (i & j & Hi & Hj & Hz).
    assert (Hin : In (i, j) (empty_cells (game_grid st)))
      by (apply empty_cells_In; auto).
    rewrite Hnil in Hin. destruct Hin.
  - apply empty_cells_In in Hin as (Hi & Hj & Hz). split.
    + intros _. exists i, j, v. cbn [with_grid game_grid].
      repeat split; try assumption.
      * now apply cell_set_cell_eq.
      * intros i' j' Hne. now apply cell_set_cell_ne.
      * apply occupied_set_cell; try assumption. lia.
    + intros Hfull. exfalso. exact (Hfull i j Hi Hj Hz).
Qed.

Lemma add_random_tile_spec_witness :
  ((exists i j : nat, (i < 4)%nat /\ (j < 4)%nat
                      /\ cell [[2;0;0;0];[0;4;0;0];[0;0;0;0];[0;0;0;2]] i j
                         = 0) ->
   exists (i j : nat) (v : Z),
     (i < 4)%nat /\ (j < 4)%nat
     /\ cell [[2;0;0;0];[0;4;0;0];[0;0;0;0];[0;0;0;2]] i j = 0
     /\ (v = 2 \/ v = 4)
     /\ snd (add_random_tile 5 1
               (Game [[2;0;0;0];[0;4;0;0];[0;0;0;0];[0;0;0;2]] 4 true))
        = with_grid (Game [[2;0;0;0];[0;4;0;0];[0;0;0;0];[0;0;0;2]] 4 true)
            (set_cell [[2;0;0;0];[0;4;0;0];[0;0;0;0];[0;0;0;2]] i j v)
     /\ cell (game_grid (snd (add_random_tile 5 1
           (Game [[2;0;0;0];[0;4;0;0];[0;0;0;0];[0;0;0;2]] 4 true)))) i j = v
     /\ (forall i' j' : nat, (i', j') <> (i, j) ->
           cell (game_grid (snd (add_random_tile 5 1
             (Game [[2;0;0;0];[0;4;0;0];[0;0;0;0];[0;0;0;2]] 4 true)))) i' j'
           = cell [[2;0;0;0];[0;4;0;0];[0;0;0;0];[0;0;0;2]] i' j')
     /\ Spec.occupied (game_grid (snd (add_random_tile 5 1
           (Game [[2;0;0;0];[0;4;0;0];[0;0;0;0];[0;0;0;2]] 4 true))))
        = S (Spec.occupied [[2;0;0;0];[0;4;0;0];[0;0;0;0];[0;0;0;2]]))
  /\ ((forall i j : nat, (i < 4)%nat -> (j < 4)%nat ->
         cell [[2;0;0;0];[0;4;0;0];[0;0;0;0];[0;0;0;2]] i j <> 0) ->
      snd (add_random_tile 5 1
             (Game [[2;0;0;0];[0;4;0;0];[0;0;0;0];[0;0;0;2]] 4 true))
      = Game [[2;0;0;0];[0;4;0;0];[0;0;0;0];[0;0;0;2]] 4 true).
Proof.
  apply (add_random_tile_spec 5 1
    (Game [[2;0;0;0];[0;4;0;0];[0;0;0;0];[0;0;0;2]] 4 true)).
  apply is_grid_intro.
Defined.

(** ** The transforms permute the cells *)

Lemma transform_cells (k : key) (g : grid) :
  is_grid g -> concat (Spec.transform k g) ≡ₚ concat g.
Proof.
  intros Hg. grid_cases g Hg.
  destruct k; cbn; try reflexivity; solve_Permutation.
Qed.

Lemma inverse_transform_cells (k : key) (g : grid) :
  is_grid g -> concat (Spec.inverse_transform k g) ≡ₚ concat g.
Proof.
  intros Hg. grid_cases g Hg.
  destruct k; cbn; try reflexivity; solve_Permutation.
Qed.

Lemma total_Permutation (phi : Z -> Z) (a b : list Z) :
  a ≡ₚ b -> total phi a = total phi b.
Proof. induction 1; simpl; lia. Qed.

(** ** What one pass does to the measures of a row *)

Lemma total_remove_zeros (phi : Z -> Z) (l : list Z) :
  phi 0 = 0 -> total phi (Spec.remove_zeros l) = total phi l.
Proof.
  intros H0. induction l as [|x t IH]; simpl; [reflexivity|].
  case_bool_decide as Hx; simpl; [subst x|]; lia.
Qed.

Lemma total_pad (phi : Z -> Z) (n : nat) (l : list Z) :
  phi 0 = 0 -> total phi (Spec.pad n l) = total phi l.
Proof.
  intros H0. unfold Spec.pad. rewrite total_app.
  induction (n - length l)%nat as [|k IH]; simpl; lia.
Qed.

Lemma total_compact_left (phi : Z -> Z) (r : list Z) :
  phi 0 = 0 ->
  total phi (Spec.compact_left r)
  = total phi (fst (Spec.merge_scan (Spec.remove_zeros r))).
Proof.
  intros H0. unfold Spec.compact_left, Spec.squeeze.
  now rewrite total_pad, total_remove_zeros.
Qed.

Lemma Forall_remove_zeros (P : Z -> Prop) (l : list Z) :
  Forall P l -> Forall P (Spec.remove_zeros l).
Proof.
  induction 1 as [|x t Hx _ IH]; simpl; [constructor|].
  case_bool_decide; [exact IH | now constructor].
Qed.

Lemma Forall_pad (P : Z -> Prop) (n : nat) (l : list Z) :
  P 0 -> Forall P l -> Forall P (Spec.pad n l).
Proof.
  intros H0 Hl. unfold Spec.pad. apply Forall_app. split; [exact Hl|].
  induction (n - length l)%nat; simpl; constructor; auto.
Qed.

Lemma at_least_zero (t : Z) : 1 <= t -> at_least t 0 = 0.
Proof. intros H. unfold at_least. destruct (Z.leb_spec t 0); lia. Qed.

Lemma earned_zero : earned 0 = 0.
Proof. reflexivity. Qed.

Lemma tile_nonneg (v : Z) : tile v -> 0 <= v.
Proof.
  intros [->|(k & Hk & ->)]; [lia|]. apply Z.pow_nonneg. lia.
Qed.

Lemma tile_double (v : Z) : tile v -> tile (2 * v).
Proof.
  intros [->|(k & Hk & ->)]; [now left|]. right. exists (k + 1).
  split; [lia|]. rewrite Z.pow_add_r by lia. lia.
Qed.

Lemma earned_double (v : Z) :
  tile v -> earned (2 * v) = 2 * earned v + 2 * v.
Proof.
  intros [->|(k & Hk & ->)]; [reflexivity|]. unfold earned.
  replace (2 * 2 ^ k) with (2 ^ (k + 1)) by (rewrite Z.pow_add_r; lia).
  rewrite !Z.log2_pow2 by lia. rewrite Z.pow_add_r by lia. ring.
Qed.

Lemma fits_doubled (v : Z) : fits v -> Spec.doubled v = 2 * v.
Proof.
  intros [Ht Hv]. apply doubled_small. apply tile_nonneg in Ht. lia.
Qed.

Lemma total_cons (phi : Z -> Z) (x : Z) (l : list Z) :
  total phi (x :: l) = phi x + total phi l.
Proof. reflexivity. Qed.

Lemma at_least_cases (t x : Z) :
  (t <= x /\ at_least t x = 1) \/ (x < t /\ at_least t x = 0).
Proof. unfold at_least. destruct (Z.leb_spec t x); [left | right]; lia. Qed.

Lemma scan_counts (t : Z) (l : list Z) :
  1 <= t -> Forall fits l ->
  2 * count_ge (2 * t) (fst (Spec.merge_scan l))
  <= count_ge (2 * t) l + count_ge t l.
Proof.
  intros Ht. unfold count_ge.
  induction l as [| a | a l IH | a b l Hab IH] using scan_ind; intros Hf.
  - simpl. lia.
  - cbn [Spec.merge_scan fst]. rewrite !total_cons. simpl.
    pose proof (at_least_cases (2 * t) a). pose proof (at_least_cases t a).
    lia.
  - inversion Hf as [|? ? Ha Hf1]; subst. inversion Hf1; subst.
    rewrite merge_scan_eq, fits_doubled by exact Ha.
    cbn [fst]. rewrite !total_cons, at_least_zero by lia.
    specialize (IH ltac:(assumption)).
    pose proof (at_least_cases (2 * t) (2 * a)).
    pose proof (at_least_cases (2 * t) a). pose proof (at_least_cases t a).
    lia.
  - inversion Hf as [|? ? Ha Hf1]; subst.
    rewrite merge_scan_ne by exact Hab.
    cbn [fst]. specialize (IH Hf1). rewrite !total_cons in *.
    pose proof (at_least_cases (2 * t) a). pose proof (at_least_cases t a).
    lia.
Qed.

Lemma scan_tiles (l : list Z) :
  Forall fits l -> Forall tile (fst (Spec.merge_scan l)).
Proof.
  induction l as [| a | a l IH | a b l Hab IH] using scan_ind; intros Hf.
  - constructor.
  - inversion Hf as [|? ? [Ha _] _]; subst. simpl.
    constructor; [exact Ha | constructor].
  - inversion Hf as [|? ? Ha Hf1]; subst. inversion Hf1; subst.
    rewrite merge_scan_eq, fits_doubled by exact Ha. cbn [fst].
    constructor; [apply tile_double, Ha|].
    constructor; [now left | auto].
  - inversion Hf as [|? ? Ha Hf1]; subst.
    rewrite merge_scan_ne by exact Hab. cbn [fst].
    constructor; [apply Ha | auto].
Qed.

Lemma scan_earned (l : list Z) :
  Forall fits l ->
  total earned (fst (Spec.merge_scan l))
  = total earned l + sum (snd (Spec.merge_scan l))
  /\ Forall (fun m => 0 <= m) (snd (Spec.merge_scan l)).
Proof.
  unfold sum.
  induction l as [| a | a l IH | a b l Hab IH] using scan_ind; intros Hf.
  - simpl. split; [lia | constructor].
  - simpl. split; [lia | constructor].
  - inversion Hf as [|? ? Ha Hf1]; subst. inversion Hf1; subst.
    rewrite merge_scan_eq, fits_doubled by exact Ha.
    destruct (IH ltac:(assumption)) as [IH1 IH2].
    cbn [fst snd]. rewrite !total_cons. split.
    + rewrite IH1, earned_double, earned_zero by apply Ha. lia.
    + constructor; [|exact IH2]. destruct Ha as [Ha _].
      apply tile_nonneg in Ha. lia.
  - inversion Hf as [|? ? Ha Hf1]; subst.
    rewrite merge_scan_ne by exact Hab.
    destruct (IH Hf1) as [IH1 IH2].
    cbn [fst snd]. rewrite !total_cons in *.
    split; [lia | exact IH2].
Qed.

Lemma row_counts (t : Z) (r : list Z) :
  1 <= t -> Forall fits r ->
  2 * count_ge (2 * t) (Spec.compact_left r)
  <= count_ge (2 * t) r + count_ge t r.
Proof.
  intros Ht Hf. unfold count_ge.
  rewrite total_compact_left by (apply at_least_zero; lia).
  rewrite <- (total_remove_zeros (at_least (2 * t)) r)
    by (apply at_least_zero; lia).
  rewrite <- (total_remove_zeros (at_least t) r)
    by (apply at_least_zero; lia).
  apply scan_counts; [exact Ht | now apply Forall_remove_zeros].
Qed.

Lemma row_tiles (r : list Z) :
  Forall fits r -> Forall tile (Spec.compact_left r).
Proof.
  intros Hf. unfold Spec.compact_left, Spec.squeeze.
  apply Forall_pad; [now left|].
  apply Forall_remove_zeros, scan_tiles. now apply Forall_remove_zeros.
Qed.

Lemma row_earned (r : list Z) :
  Forall fits r ->
  total earned (Spec.compact_left r) = total earned r + sum (Spec.merged r)
  /\ Forall (fun m => 0 <= m) (Spec.merged r).
Proof.
  intros Hf. rewrite total_compact_left by apply earned_zero.
  rewrite <- (total_remove_zeros earned r) by apply earned_zero.
  apply scan_earned. now apply Forall_remove_zeros.
Qed.

(** ** What one pass does to the measures of the grid *)

Lemma pass_counts (t : Z) (g : grid) :
  1 <= t -> Forall fits (concat g) ->
  2 * count_ge (2 * t) (concat (pass g))
  <= count_ge (2 * t) (concat g) + count_ge t (concat g).
Proof.
  intros Ht. unfold count_ge, pass.
  induction g as [|r g IH]; simpl; [lia|].
  intros Hf. apply Forall_app in Hf as [Hr Hg].
  rewrite !total_app. specialize (IH Hg).
  pose proof (row_counts t r Ht Hr) as H. unfold count_ge in H. lia.
Qed.

Lemma pass_tiles (g : grid) :
  Forall fits (concat g) -> Forall tile (concat (pass g)).
Proof.
  unfold pass. induction g as [|r g IH]; simpl; [constructor|].
  intros Hf. apply Forall_app in Hf as [Hr Hg].
  apply Forall_app. split; [now apply row_tiles | auto].
Qed.

Lemma pass_earned (g : grid) :
  Forall fits (concat g) ->
  total earned (concat (pass g))
  = total earned (concat g) + sum (Spec.merged_grid g)
  /\ Forall (fun m => 0 <= m) (Spec.merged_grid g).
Proof.
  unfold pass, Spec.merged_grid, sum.
  induction g as [|r g IH]; simpl; [split; [lia | constructor]|].
  intros Hf. apply Forall_app in Hf as [Hr Hg].
  destruct (IH Hg) as [IH1 IH2].
  destruct (row_earned r Hr) as [H1 H2]. unfold sum in H1.
  rewrite !total_app. split; [lia|].
  apply Forall_app. now split.
Qed.

Lemma add_all_sum (ms : list Z) (s : Z) :
  0 <= s -> Forall (fun m => 0 <= m) ms ->
  s + sum ms <= Int64.max_signed ->
  Spec.add_all s ms = s + sum ms.
Proof.
  unfold Spec.add_all, sum. revert s.
  induction ms as [|m ms IH]; intros s Hs Hm Hle; simpl in *; [lia|].
  inversion Hm as [|? ? Hm0 Hm1]; subst.
  assert (H0 : 0 <= total (fun v : Z => v) ms).
  { clear -Hm1. induction Hm1; simpl; lia. }
  rewrite add_small
    by (unfold Int64.in_range, Int64.min_signed, Int64.max_signed in *; lia).
  rewrite IH; [lia | lia | exact Hm1 | lia].
Qed.

Lemma count_ge_bounds (t : Z) (l : list Z) :
  0 <= count_ge t l <= Z.of_nat (length l).
Proof.
  pose proof (total_bounds (at_least t) 0 1 l) as H.
  unfold count_ge. cut (Forall (fun x => 0 <= at_least t x <= 1) l).
  { intros HF. specialize (H HF). lia. }
  apply Forall_forall. intros x _. destruct (at_least_cases t x); lia.
Qed.

Lemma count_ge_none (t : Z) (l : list Z) :
  count_ge t l <= 0 -> Forall (fun x => x < t) l.
Proof.
  induction l as [|x l IH]; [constructor|].
  unfold count_ge in *. rewrite total_cons. intros H.
  pose proof (count_ge_bounds t l) as Hb. unfold count_ge in Hb.
  destruct (at_least_cases t x) as [[? E]|[? E]]; rewrite E in H; [lia|].
  constructor; [assumption | apply IH; lia].
Qed.

(** ** The strengthened invariant is inductive *)

Lemma sound_cells_small (g : grid) :
  sound_cells g -> Forall (fun v => v < 2 ^ 18) (concat g).
Proof.
  intros (_ & _ & Hc). apply count_ge_none.
  specialize (Hc 18). lia.
Qed.

Lemma sound_cells_fits (g : grid) : sound_cells g -> Forall fits (concat g).
Proof.
  intros Hs. pose proof (sound_cells_small g Hs) as Hsm.
  destruct Hs as (_ & Ht & _).
  rewrite List.Forall_forall in *. intros x Hx. split; [now apply Ht|].
  specialize (Hsm x Hx). simpl in Hsm. lia.
Qed.

Lemma pow2_double (m : Z) : 1 <= m -> 2 ^ m = 2 * 2 ^ (m - 1).
Proof.
  intros H. replace m with (Z.succ (m - 1)) at 1 by lia.
  apply Z.pow_succ_r. lia.
Qed.

Lemma sound_cells_pass (g : grid) : sound_cells g -> sound_cells (pass g).
Proof.
  intros Hs. pose proof (sound_cells_fits g Hs) as Hf.
  destruct Hs as (Hg & Ht & Hc). split; [|split].
  - now apply pass_is_grid.
  - now apply pass_tiles.
  - intros m Hm.
    assert (H1 : 1 <= 2 ^ (m - 1)) by (apply Z.lt_pred_le, Z.pow_pos_nonneg; lia).
    pose proof (pass_counts (2 ^ (m - 1)) g H1 Hf) as Hp.
    rewrite <- pow2_double in Hp by lia.
    pose proof (Hc m Hm) as Hcm.
    destruct (decide (m = 3)) as [->|Hne].
    + pose proof (count_ge_bounds (2 ^ (3 - 1)) (concat g)) as Hb.
      rewrite (is_grid_cells g Hg) in Hb. lia.
    + pose proof (Hc (m - 1) ltac:(lia)) as Hc1. lia.
Qed.

Lemma sound_cells_transform (k : key) (g : grid) :
  sound_cells g -> sound_cells (Spec.transform k g).
Proof.
  intros (Hg & Ht & Hc).
  pose proof (transform_cells k g Hg) as Hp. split; [|split].
  - now apply transform_is_grid.
  - eapply Permutation_Forall; [symmetry; exact Hp | exact Ht].
  - intros m Hm. unfold count_ge.
    rewrite (total_Permutation _ _ _ Hp). now apply Hc.
Qed.

Lemma sound_cells_inverse_transform (k : key) (g : grid) :
  sound_cells g -> sound_cells (Spec.inverse_transform k g).
Proof.
  intros (Hg & Ht & Hc).
  pose proof (inverse_transform_cells k g Hg) as Hp. split; [|split].
  - now apply inverse_transform_is_grid.
  - eapply Permutation_Forall; [symmetry; exact Hp | exact Ht].
  - intros m Hm. unfold count_ge.
    rewrite (total_Permutation _ _ _ Hp). now apply Hc.
Qed.

Lemma sound_cells_zeros : sound_cells zeros44.
Proof.
  split; [apply is_grid_intro|]. split.
  - simpl. repeat constructor.
  - intros m Hm. unfold count_ge. simpl.
    assert (H : 0 < 2 ^ m) by (apply Z.pow_pos_nonneg; lia).
    rewrite at_least_zero by lia. lia.
Qed.

Lemma sound_cells_spawn (g : grid) (i j : nat) (v : Z) :
  sound_cells g -> (i < 4)%nat -> (j < 4)%nat -> cell g i j = 0 ->
  v = 2 \/ v = 4 ->
  sound_cells (set_cell g i j v)
  /\ total earned (concat g) <= total earned (concat (set_cell g i j v)).
Proof.
  intros (Hg & Ht & Hc) Hi Hj Hz Hv.
  destruct (concat_set_cell g i j v Hg Hi Hj) as [E Hlk].
  rewrite Hz in Hlk. split; [split; [|split]|].
  - now apply set_cell_is_grid.
  - rewrite E. apply Forall_insert; [exact Ht|].
    right. destruct Hv as [->| ->]; [exists 1 | exists 2]; split; lia.
  - intros m Hm. rewrite E. unfold count_ge.
    rewrite (total_insert _ _ _ _ _ Hlk).
    assert (H8 : 2 ^ 3 <= 2 ^ m) by (apply Z.pow_le_mono_r; lia).
    rewrite at_least_zero by lia.
    destruct (at_least_cases (2 ^ m) v) as [[? _]|[_ ->]]; [lia|].
    specialize (Hc m Hm). unfold count_ge in Hc. lia.
  - rewrite E, (total_insert _ _ _ _ _ Hlk), earned_zero.
    destruct Hv as [->| ->]; vm_compute (earned _); lia.
Qed.

Lemma earned_bounds (v : Z) :
  tile v -> v < 2 ^ 18 -> 0 <= earned v <= 2 ^ 22.
Proof.
  intros [->|(k & Hk & ->)] Hv; [vm_compute; split; discriminate|].
  unfold earned. rewrite Z.log2_pow2 by lia.
  assert (Hk18 : k < 18) by (apply (Z.pow_lt_mono_r_iff 2); lia).
  assert (H0 : 0 < 2 ^ k) by (apply Z.pow_pos_nonneg; lia).
  change (2 ^ 22) with (16 * 2 ^ 18). nia.
Qed.

Lemma sound_cells_earned (g : grid) :
  sound_cells g -> 0 <= total earned (concat g) <= 2 ^ 26.
Proof.
  intros Hs. pose proof (sound_cells_small g Hs) as Hsm.
  destruct Hs as (Hg & Ht & _).
  pose proof (total_bounds earned 0 (2 ^ 22) (concat g)) as H.
  rewrite (is_grid_cells g Hg) in H.
  change (2 ^ 26) with (2 ^ 22 * Z.of_nat 16). apply H.
  rewrite List.Forall_forall in *. intros x Hx.
  apply earned_bounds; [now apply Ht | now apply Hsm].
Qed.

(** One pass on a sound state: no addition wraps, the score grows by the
    sum of the merged tiles, and the state stays sound. *)
Lemma sound_pass (g : grid) (s : Z) (r : bool) :
  sound (Game g s r) ->
  sound (Game (pass g) (pass_score g s) r)
  /\ pass_score g s = s + sum (Spec.merged_grid g)
  /\ Forall (fun m => 0 <= m) (Spec.merged_grid g).
Proof.
  intros [Hc Hs]. cbn [game_grid score] in *.
  pose proof (sound_cells_pass g Hc) as Hc'.
  destruct (pass_earned g (sound_cells_fits g Hc)) as [He Hm].
  pose proof (sound_cells_earned _ Hc') as Hb.
  assert (Hsum : pass_score g s = s + sum (Spec.merged_grid g)).
  { unfold pass_score. apply add_all_sum; [lia | exact Hm |].
    unfold Int64.max_signed. lia. }
  assert (H0 : 0 <= sum (Spec.merged_grid g)).
  { clear -Hm. unfold sum. induction Hm; simpl; lia. }
  split; [|split; [exact Hsum | exact Hm]].
  constructor; cbn [game_grid score]; [exact Hc' | lia].
Qed.

Lemma one_pass_eq (st : game) :
  length (game_grid st) = 4%nat ->
  one_pass st
  = Game (pass (game_grid st)) (pass_score (game_grid st) (score st))
      (running st).
Proof. intros H. unfold one_pass. now rewrite pass_body_eq. Qed.

Lemma sound_one_pass (st : game) :
  sound st ->
  sound (one_pass st)
  /\ score (one_pass st) = score st + sum (Spec.merged_grid (game_grid st))
  /\ Forall (fun m => 0 <= m) (Spec.merged_grid (game_grid st)).
Proof.
  intros Hs. destruct st as [g s r].
  rewrite one_pass_eq by (destruct Hs as [(Hg & _) _]; apply Hg).
  cbn [game_grid score running]. now apply sound_pass.
Qed.

Lemma sound_with_transform (k : key) (st : game) :
  sound st -> sound (with_grid st (Spec.transform k (game_grid st))).
Proof.
  intros [Hc Hs]. constructor; cbn [with_grid game_grid score].
  - now apply sound_cells_transform.
  - rewrite (total_Permutation _ _ _ (transform_cells k _ (proj1 Hc))).
    exact Hs.
Qed.

Lemma sound_with_inverse_transform (k : key) (st : game) :
  sound st ->
  sound (with_grid st (Spec.inverse_transform k (game_grid st))).
Proof.
  intros [Hc Hs]. constructor; cbn [with_grid game_grid score].
  - now apply sound_cells_inverse_transform.
  - rewrite (total_Permutation _ _ _
               (inverse_transform_cells k _ (proj1 Hc))).
    exact Hs.
Qed.

Lemma sound_after_passes (k : key) (n : nat) (st : game) :
  sound st ->
  sound (after_passes k n st) /\ score st <= score (after_passes k n st).
Proof.
  intros Hs. unfold after_passes.
  induction n as [|n [IH1 IH2]].
  - split; [now apply sound_with_transform | reflexivity].
  - rewrite Nat.iter_succ. set (x := Nat.iter n one_pass _) in *.
    destruct (sound_one_pass x IH1) as (H1 & H2 & H3). split; [exact H1|].
    assert (0 <= sum (Spec.merged_grid (game_grid x))).
    { clear -H3. unfold sum. induction H3; simpl; lia. }
    lia.
Qed.

Lemma shift_after_passes (k : key) (st : game) :
  is_grid (game_grid st) ->
  snd (shift k st)
  = with_grid (after_passes k 3 st)
      (Spec.inverse_transform k (game_grid (after_passes k 3 st))).
Proof.
  intros Hg. rewrite shift_eq by exact Hg.
  pose proof (transform_is_grid k _ Hg) as [Hl _].
  unfold after_passes. rewrite !Nat.iter_succ. cbn [Nat.iter nat_rect snd].
  rewrite (one_pass_eq (with_grid st _)) by exact Hl.
  cbn [with_grid game_grid score running].
  rewrite (one_pass_eq (Game _ _ _))
    by (cbn [game_grid]; unfold pass; now rewrite length_map).
  cbn [game_grid score running].
  rewrite (one_pass_eq (Game _ _ _))
    by (cbn [game_grid]; unfold pass; now rewrite !length_map).
  reflexivity.
Qed.

Lemma sound_shift (k : key) (st : game) :
  sound st ->
  sound (snd (shift k st)) /\ score st <= score (snd (shift k st)).
Proof.
  intros Hs. rewrite shift_after_passes by apply Hs.
  destruct (sound_after_passes k 3 st Hs) as [H1 H2].
  split; [now apply sound_with_inverse_transform | exact H2].
Qed.

Lemma sound_spawn (pick val : nat) (st : game) :
  sound st -> sound (snd (add_random_tile pick val st)).
Proof.
  intros Hs.
  destruct (add_random_tile_cases pick val st)
    as [[_ ->]|(i & j & v & Hin & Hv & ->)]; [exact Hs|].
  apply empty_cells_In in Hin as (Hi & Hj & Hz).
  destruct Hs as [Hc Hsc].
  destruct (sound_cells_spawn _ i j v Hc Hi Hj Hz Hv) as [H1 H2].
  constructor; cbn [snd with_grid game_grid score]; [exact H1 | lia].
Qed.

Lemma sound_running (st : game) (b : bool) :
  sound st -> sound (Game (game_grid st) (score st) b).
Proof. intros [Hc Hs]. now constructor. Qed.

Lemma sound_after_move (pick val : nat) (st : game) :
  sound st -> sound (snd (after_move pick val st)).
Proof.
  intros Hs. unfold after_move. unfold mbind at 1, M_bind at 1.
  pose proof (sound_spawn pick val st Hs) as H1.
  destruct (add_random_tile pick val st) as [u st1]. cbn [snd] in H1.
  unfold mbind, M_bind.
  destruct (can_move st1) as [ok st2] eqn:E.
  pose proof (can_move_pure st1) as Hp. rewrite E in Hp. cbn [snd] in Hp.
  subst st2. destruct ok; cbn [negb]; [exact H1|].
  now apply sound_running.
Qed.

Lemma sound_handler (k : key) (pick val : nat) (st : game) :
  sound st ->
  sound (snd (handler k pick val st))
  /\ score st <= score (snd (handler k pick val st)).
Proof.
  intros Hs. rewrite handler_eq.
  destruct (sound_shift k st Hs) as [H1 H2].
  destruct (fst (shift k st)); cbn [snd]; [|now split].
  split; [now apply sound_after_move|]. now rewrite after_move_score.
Qed.

Lemma sound_press (k : key) (pick val : nat) (st : game) :
  sound st ->
  sound (press k pick val st) /\ score st <= score (press k pick val st).
Proof.
  intros Hs. unfold press.
  destruct (running st); [now apply sound_handler | split; [exact Hs | lia]].
Qed.

Lemma sound_init (p1 v1 p2 v2 : nat) : sound (init p1 v1 p2 v2).
Proof.
  unfold init. unfold mbind, M_bind.
  assert (H0 : sound (Game zeros44 0 true)).
  { constructor; [apply sound_cells_zeros | vm_compute; split; discriminate]. }
  pose proof (sound_spawn p1 v1 _ H0) as H1.
  pose proof (add_random_tile_score p1 v1 (Game zeros44 0 true)) as [S1 _].
  destruct (add_random_tile p1 v1 (Game zeros44 0 true)) as [u1 st1].
  cbn [snd] in *.
  pose proof (sound_spawn p2 v2 _ H1) as H2.
  pose proof (add_random_tile_score p2 v2 st1) as [S2 _].
  destruct (add_random_tile p2 v2 st1) as [u2 st2]. cbn [snd] in *.
  destruct H2 as [Hc Hs]. constructor; cbn [game_grid score]; [exact Hc|].
  rewrite S2, S1 in Hs. exact Hs.
Qed.

Lemma reachable_sound (st : game) : reachable st -> sound st.
Proof.
  induction 1 as [p1 v1 p2 v2 | k pick val st _ IH].
  - apply sound_init.
  - now apply sound_press.
Qed.

Lemma cell_in_concat (g : grid) (i j : nat) :
  is_grid g -> (i < 4)%nat -> (j < 4)%nat -> In (cell g i j) (concat g).
Proof.
  intros Hg Hi Hj.
  destruct (concat_set_cell g i j 0 Hg Hi Hj) as [_ H].
  apply list_elem_of_In. eapply list_elem_of_lookup_2, H.
Qed.

Lemma sound_cells_invariant (g : grid) : sound_cells g -> Spec.invariant g.
Proof.
  intros (Hg & Ht & _). split.
  - intros i j Hi Hj Hnz.
    rewrite List.Forall_forall in Ht.
    destruct (Ht _ (cell_in_concat g i j Hg Hi Hj)) as [E|(k & Hk & E)];
      [contradiction|].
    exists k. split; [lia | exact E].
  - unfold Spec.occupied, Np.nonzero.
    rewrite <- (is_grid_cells g Hg). apply filter_length_le.
Qed.

(** ** C7: the score *)

(** X1 (the property that claim C7 states): in every state the program can
    reach the score is non-negative and
    no operation decreases it: a key press (handled or ignored) leaves it
    at least as large, the spawn does not touch it, and each call of [move]
    made by a handler adds exactly the sum of the merged tiles that call
    creates, none of which is negative. *)
Theorem score_never_decreases (st : game) :
  reachable st ->
  0 <= score st
  /\ (forall (k : key) (pick val : nat),
        score st <= score (press k pick val st)
        /\ score st <= score (snd (handler k pick val st)))
  /\ (forall pick val : nat,
        score (snd (add_random_tile pick val st)) = score st)
  /\ (forall (k : key) (n : nat), (n < 3)%nat ->
        score (snd (move (game_grid (after_passes k n st))
                      (after_passes k n st)))
        = score (after_passes k n st)
          + sum (Spec.merged_grid (game_grid (after_passes k n st)))
        /\ Forall (fun m => 0 <= m)
             (Spec.merged_grid (game_grid (after_passes k n st)))
        /\ score st <= score (after_passes k n st)).
Proof.
  intros Hr. apply reachable_sound in Hr as Hs.
  split; [apply Hs|]. split; [|split].
  - intros k pick val. split.
    + now apply sound_press.
    + now apply sound_handler.
  - intros pick val. apply add_random_tile_score.
  - intros k n _.
    destruct (sound_after_passes k n st Hs) as [Hn Hle].
    set (x := after_passes k n st) in *.
    rewrite move_pass by apply Hn. cbn [snd with_score score].
    destruct x as [g s r]. cbn [game_grid score] in *.
    destruct (sound_pass g s r Hn) as (_ & H1 & H2). auto.
Qed.

Lemma score_never_decreases_witness :
  0 <= score (press Left 3 0 (init 0 0 0 0)).
Proof.
  exact (proj1 (score_never_decreases (press Left 3 0 (init 0 0 0 0))
                  (reachable_press Left 3 0 _ (reachable_init 0 0 0 0)))).
Defined.

(** ** C9: the grid invariant *)

(** X2 (the property that claim C9 states): every state the program can
    reach has a grid in which every
    non-zero cell is a power of two and at most 16 cells are occupied: the
    constructed grid with its two seed tiles has it, and from a reachable
    state a pass of [move], the three passes of any handler, a tile spawn
    and a whole key press all lead to grids that have it. *)
Theorem reachable_invariant (st : game) :
  reachable st ->
  Spec.invariant (game_grid st)
  /\ (forall p1 v1 p2 v2 : nat,
        Spec.invariant (game_grid (init p1 v1 p2 v2)))
  /\ (forall (k : key) (n : nat),
        Spec.invariant
          (fst (move (game_grid (after_passes k n st))
                  (after_passes k n st))))
  /\ (forall k : key, Spec.invariant (game_grid (snd (shift k st))))
  /\ (forall pick val : nat,
        Spec.invariant (game_grid (snd (add_random_tile pick val st))))
  /\ (forall (k : key) (pick val : nat),
        Spec.invariant (game_grid (press k pick val st))).
Proof.
  intros Hr. apply reachable_sound in Hr as Hs.
  split; [apply sound_cells_invariant, Hs|].
  split; [|split; [|split; [|split]]].
  - intros p1 v1 p2 v2. apply sound_cells_invariant, sound_init.
  - intros k n. destruct (sound_after_passes k n st Hs) as [Hn _].
    rewrite move_pass by apply Hn. cbn [fst].
    apply sound_cells_invariant, sound_cells_pass, Hn.
  - intros k. apply sound_cells_invariant. now apply sound_shift.
  - intros pick val. apply sound_cells_invariant. now apply sound_spawn.
  - intros k pick val. apply sound_cells_invariant. now apply sound_press.
Qed.

Lemma reachable_invariant_witness :
  Spec.invariant (game_grid (press Up 2 1 (press Left 3 0 (init 0 0 0 0)))).
Proof.
  exact (proj1 (reachable_invariant
                  (press Up 2 1 (press Left 3 0 (init 0 0 0 0)))
                  (reachable_press Up 2 1 _
                     (reachable_press Left 3 0 _ (reachable_init 0 0 0 0))))).
Defined.


(** * Further properties of the code *)

(** ** No arithmetic of a reachable game wraps around *)

Lemma tile_below (v : Z) : tile v -> v < 2 ^ 18 -> 0 <= v <= 131072.
Proof.
  intros [->|(k & Hk & ->)] Hv; [lia|].
  assert (Hk18 : k < 18) by (apply (Z.pow_lt_mono_r_iff 2); lia).
  split; [apply Z.pow_nonneg; lia|].
  change 131072 with (2 ^ 17). apply Z.pow_le_mono_r; lia.
Qed.

(** X3: in every state the program can reach, no cell holds more than
    131072 = 2^17 and the score is at most 2^26, far inside the 64-bit
    range of the grid's cells: the doublings and score additions of [move]
    never wrap. *)
Theorem reachable_bounds (st : game) :
  reachable st ->
  (forall i j : nat, (i < 4)%nat -> (j < 4)%nat ->
     0 <= cell (game_grid st) i j <= 131072)
  /\ 0 <= score st <= 2 ^ 26
  /\ (forall i j : nat, (i < 4)%nat -> (j < 4)%nat ->
        Spec.doubled (cell (game_grid st) i j)
        = 2 * cell (game_grid st) i j).
Proof.
  intros Hr. apply reachable_sound in Hr as [Hc Hs].
  pose proof (sound_cells_small _ Hc) as Hsm.
  pose proof (sound_cells_earned _ Hc) as He.
  pose proof (sound_cells_fits _ Hc) as Hf.
  destruct Hc as (Hg & Ht & _).
  rewrite List.Forall_forall in Ht, Hsm, Hf.
  split; [|split; [lia|]].
  - intros i j Hi Hj. pose proof (cell_in_concat _ i j Hg Hi Hj) as Hin.
    apply tile_below; [apply Ht, Hin | apply Hsm, Hin].
  - intros i j Hi Hj. apply fits_doubled, Hf.
    now apply cell_in_concat.
Qed.

Lemma reachable_bounds_witness :
  0 <= score (press Right 1 1 (init 5 0 2 1)) <= 2 ^ 26.
Proof.
  exact (proj1 (proj2 (reachable_bounds (press Right 1 1 (init 5 0 2 1))
           (reachable_press Right 1 1 _ (reachable_init 5 0 2 1))))).
Defined.

(** ** The sum of the tiles *)

Lemma scan_sum (l : list Z) :
  Forall fits l -> sum (fst (Spec.merge_scan l)) = sum l.
Proof.
  unfold sum.
  induction l as [| a | a l IH | a b l Hab IH] using scan_ind; intros Hf;
    try reflexivity.
  - inversion Hf as [|? ? Ha Hf1]; subst. inversion Hf1; subst.
    rewrite merge_scan_eq, fits_doubled by exact Ha. cbn [fst].
    rewrite !total_cons, IH by assumption. lia.
  - inversion Hf as [|? ? Ha Hf1]; subst.
    rewrite merge_scan_ne by exact Hab. cbn [fst].
    rewrite !total_cons in *. rewrite IH by assumption. lia.
Qed.

Lemma row_sum (r : list Z) :
  Forall fits r -> sum (Spec.compact_left r) = sum r.
Proof.
  intros Hf. unfold sum. rewrite total_compact_left by reflexivity.
  rewrite <- (total_remove_zeros (fun v => v) r) by reflexivity.
  apply scan_sum. now apply Forall_remove_zeros.
Qed.

Lemma pass_sum (g : grid) :
  Forall fits (concat g) -> sum (concat (pass g)) = sum (concat g).
Proof.
  unfold pass, sum. induction g as [|r g IH]; simpl; [reflexivity|].
  intros Hf. apply Forall_app in Hf as [Hr Hg].
  rewrite !total_app, IH by exact Hg.
  pose proof (row_sum r Hr) as H. unfold sum in H. lia.
Qed.

Lemma sum_after_passes (k : key) (n : nat) (st : game) :
  sound st ->
  sum (concat (game_grid (after_passes k n st)))
  = sum (concat (game_grid st)).
Proof.
  intros Hs. induction n as [|n IH].
  - unfold after_passes. cbn [Nat.iter nat_rect with_grid game_grid].
    apply total_Permutation, transform_cells, Hs.
  - destruct (sound_after_passes k n st Hs) as [Hn _].
    unfold after_passes in *. rewrite Nat.iter_succ.
    set (x := Nat.iter n one_pass _) in *.
    rewrite one_pass_eq by apply Hn. cbn [game_grid].
    rewrite pass_sum; [exact IH | apply sound_cells_fits, Hn].
Qed.

Lemma shift_sum (k : key) (st : game) :
  sound st ->
  sum (concat (game_grid (snd (shift k st)))) = sum (concat (game_grid st)).
Proof.
  intros Hs. rewrite shift_after_passes by apply Hs.
  cbn [with_grid game_grid].
  destruct (sound_after_passes k 3 st Hs) as [H3 _].
  unfold sum.
  rewrite (total_Permutation _ _ _
             (inverse_transform_cells k _ (proj1 (sound_grid _ H3)))).
  apply (sum_after_passes k 3 st Hs).
Qed.

(** X4: from a reachable state, the three passes of a handler leave the
    sum of all cells as it was (a merge replaces two equal tiles by their
    sum), in every direction; a whole key press adds to that sum nothing,
    2 or 4, the value of the tile it may spawn. *)
Theorem tile_sum_preserved (st : game) (k : key) (pick val : nat) :
  reachable st ->
  sum (concat (game_grid (snd (shift k st)))) = sum (concat (game_grid st))
  /\ (sum (concat (game_grid (press k pick val st)))
      = sum (concat (game_grid st))
      \/ sum (concat (game_grid (press k pick val st)))
         = sum (concat (game_grid st)) + 2
      \/ sum (concat (game_grid (press k pick val st)))
         = sum (concat (game_grid st)) + 4).
Proof.
  intros Hr. apply reachable_sound in Hr as Hs.
  pose proof (shift_sum k st Hs) as Hshift.
  split; [exact Hshift|].
  unfold press. destruct (running st); [|now left].
  rewrite handler_eq. destruct (fst (shift k st)); [|now left].
  cbn [snd]. rewrite <- Hshift.
  destruct (sound_shift k st Hs) as [Hs' _].
  set (st1 := snd (shift k st)) in *.
  unfold after_move, mbind, M_bind.
  destruct (add_random_tile_cases pick val st1)
    as [[_ E]|(i & j & v & Hin & Hv & E)]; rewrite E.
  - destruct (can_move st1) as [[] st2] eqn:Ec;
      pose proof (can_move_pure st1) as Hp; rewrite Ec in Hp;
      cbn [snd] in Hp; subst st2; now left.
  - apply empty_cells_In in Hin as (Hi & Hj & Hz).
    destruct (concat_set_cell (game_grid st1) i j v
                (proj1 (sound_grid _ Hs')) Hi Hj) as [Ec Hlk].
    match goal with
    | |- context [can_move ?s] =>
        destruct (can_move s) as [ok st2] eqn:Eq;
        pose proof (can_move_pure s) as Hp; rewrite Eq in Hp;
        cbn [snd] in Hp; subst st2
    end.
    assert (Hsum : sum (concat (set_cell (game_grid st1) i j v))
                   = sum (concat (game_grid st1)) + v).
    { unfold sum. rewrite Ec, (total_insert _ _ _ _ _ Hlk), Hz. lia. }
    destruct ok; unfold game_over, set_running, mret, M_ret, with_grid;
      cbn [negb snd game_grid];
      rewrite Hsum; destruct Hv as [->| ->]; auto.
Qed.

Lemma tile_sum_preserved_witness :
  sum (concat (game_grid (snd (shift Down (press Left 3 0 (init 0 0 0 0))))))
  = sum (concat (game_grid (press Left 3 0 (init 0 0 0 0)))).
Proof.
  exact (proj1 (tile_sum_preserved (press Left 3 0 (init 0 0 0 0)) Down 0 0
           (reachable_press Left 3 0 _ (reachable_init 0 0 0 0)))).
Defined.

(** ** The shape of a grid after a move *)

Lemma row4_fixed_iff (a b c d : Z) :
  Spec.compact_left [a; b; c; d] = [a; b; c; d] <-> settled [a; b; c; d].
Proof.
  unfold Spec.compact_left, Spec.squeeze, Spec.pad. simpl.
  split.
  - intros H.
    repeat (first [case_bool_decide | progress simplify_eq/=]);
      repeat split; intros; try congruence; try lia.
  - intros (H1 & H2 & H3 & H4 & H5 & H6 & _).
    repeat (first [case_bool_decide | progress simplify_eq/=]);
      try reflexivity; try tauto; try lia; try congruence.
Qed.

Lemma pass_fixed_settled (x : grid) :
  is_grid x -> (pass x = x <-> Forall settled x).
Proof.
  intros Hx. grid_cases x Hx. unfold pass. rewrite map_fixed.
  rewrite !Forall_cons, !row4_fixed_iff.
  split; intros (H0 & H1 & H2 & H3 & _);
    (split; [exact H0 | split; [exact H1 | split; [exact H2 |
       split; [exact H3 | constructor]]]]).
Qed.

Lemma shift_transformed (k : key) (st : game) :
  is_grid (game_grid st) ->
  Spec.transform k (game_grid (snd (shift k st)))
  = pass3 (Spec.transform k (game_grid st)).
Proof.
  intros Hg. rewrite shift_eq by exact Hg. cbn [snd game_grid].
  apply transform_inverse_transform.
  do 3 apply pass_is_grid. now apply transform_is_grid.
Qed.

Lemma shift_is_grid (k : key) (st : game) :
  is_grid (game_grid st) -> is_grid (game_grid (snd (shift k st))).
Proof.
  intros Hg. rewrite shift_eq by exact Hg. cbn [snd game_grid].
  apply inverse_transform_is_grid.
  do 3 apply pass_is_grid. now apply transform_is_grid.
Qed.

(** X5: after the three passes of a handler, on every 4x4 grid, the tiles
    are packed towards the edge of the key: along every row (Left, Right)
    or column (Up, Down), no tile stands behind an empty cell and no tile
    equals the tile right behind it. *)
Theorem shift_packs_tiles (k : key) (st : game) (i j : nat) :
  is_grid (game_grid st) -> (i < 4)%nat -> (j < 3)%nat ->
  (cell (game_grid (snd (shift k st))) (lane k i j).1.1 (lane k i j).1.2 = 0 ->
   cell (game_grid (snd (shift k st))) (lane k i j).2.1 (lane k i j).2.2 = 0)
  /\ (cell (game_grid (snd (shift k st))) (lane k i j).1.1 (lane k i j).1.2
      <> 0 ->
      cell (game_grid (snd (shift k st))) (lane k i j).1.1 (lane k i j).1.2
      <> cell (game_grid (snd (shift k st)))
           (lane k i j).2.1 (lane k i j).2.2).
Proof.
  intros Hg Hi Hj.
  pose proof (shift_transformed k st Hg) as Ht.
  pose proof (shift_is_grid k st Hg) as Hg'.
  assert (Hfix : Forall settled
                   (Spec.transform k (game_grid (snd (shift k st))))).
  { apply pass_fixed_settled; [now apply transform_is_grid|].
    rewrite Ht. apply pass_pass3. now apply transform_is_grid. }
  clear Ht. set (g' := game_grid (snd (shift k st))) in *.
  clearbody g'. grid_cases g' Hg'.
  assert (Hij : In (i, j)
            (flat_map (fun i => map (fun j => (i, j)) (seq 0 3)) (seq 0 4))).
  { apply in_flat_map. exists i. split; [apply in_seq; lia|].
    apply in_map_iff. exists j. split; [reflexivity | apply in_seq; lia]. }
  clear Hi Hj.
  destruct k;
    unfold Spec.transform, Np.rot90, Np.transpose, Np.fliplr, Np.flipud
      in Hfix;
    simpl in Hfix; rewrite !Forall_cons in Hfix;
    destruct Hfix as ((A1 & A2 & A3 & A4 & A5 & A6 & _)
                      & (B1 & B2 & B3 & B4 & B5 & B6 & _)
                      & (C1 & C2 & C3 & C4 & C5 & C6 & _)
                      & (D1 & D2 & D3 & D4 & D5 & D6 & _) & _);
    simpl in Hij;
    repeat (destruct Hij as [Hij|Hij];
            [injection Hij as <- <-; unfold lane, cell;
             cbn [fst snd nth Nat.sub]; split; assumption|]);
    destruct Hij.
Qed.

Lemma shift_packs_tiles_witness :
  (cell (game_grid (snd (shift Up
      (Game [[0;2;0;4];[2;2;0;4];[0;4;0;0];[2;0;8;8]] 0 true))))
     (lane Up 1 0).1.1 (lane Up 1 0).1.2 = 0 ->
   cell (game_grid (snd (shift Up
      (Game [[0;2;0;4];[2;2;0;4];[0;4;0;0];[2;0;8;8]] 0 true))))
     (lane Up 1 0).2.1 (lane Up 1 0).2.2 = 0)
  /\ (cell (game_grid (snd (shift Up
        (Game [[0;2;0;4];[2;2;0;4];[0;4;0;0];[2;0;8;8]] 0 true))))
        (lane Up 1 0).1.1 (lane Up 1 0).1.2 <> 0 ->
      cell (game_grid (snd (shift Up
        (Game [[0;2;0;4];[2;2;0;4];[0;4;0;0];[2;0;8;8]] 0 true))))
        (lane Up 1 0).1.1 (lane Up 1 0).1.2
      <> cell (game_grid (snd (shift Up
           (Game [[0;2;0;4];[2;2;0;4];[0;4;0;0];[2;0;8;8]] 0 true))))
           (lane Up 1 0).2.1 (lane Up 1 0).2.2).
Proof.
  exact (shift_packs_tiles Up
           (Game [[0;2;0;4];[2;2;0;4];[0;4;0;0];[2;0;8;8]] 0 true) 1 0
           (is_grid_intro _ _ _ _ _ _ _ _ _ _ _ _ _ _ _ _)
           ltac:(lia) ltac:(lia)).
Defined.

(** ** A move that changes the grid leaves room for the new tile *)

Lemma concat_as_cells (g : grid) :
  is_grid g ->
  concat g
  = map (fun p : nat * nat => cell g p.1 p.2)
      (flat_map (fun i => map (fun j => (i, j)) (range 4)) (range 4)).
Proof. intros Hg. grid_cases g Hg. reflexivity. Qed.

Lemma Forall_cells (P : Z -> Prop) (g : grid) :
  is_grid g ->
  Forall P (concat g)
  <-> (forall i j : nat, (i < 4)%nat -> (j < 4)%nat -> P (cell g i j)).
Proof.
  intros Hg. split.
  - intros H i j Hi Hj. rewrite List.Forall_forall in H.
    apply H. now apply cell_in_concat.
  - intros H. rewrite (concat_as_cells g Hg), Forall_map.
    apply List.Forall_forall. intros [i j] Hin. cbn [fst snd].
    unfold range in Hin. apply in_flat_map in Hin as (i' & Hi & Hin).
    apply in_map_iff in Hin as (j' & E & Hj). injection E as -> ->.
    apply in_seq in Hi, Hj. apply H; lia.
Qed.

Lemma empty_or_full (g : grid) :
  is_grid g ->
  (exists i j : nat, (i < 4)%nat /\ (j < 4)%nat /\ cell g i j = 0)
  \/ Forall (fun v => v <> 0) (concat g).
Proof.
  intros Hg. destruct (empty_cells g) as [|[i j] l] eqn:E.
  - right. apply Forall_cells; [exact Hg|]. intros i j Hi Hj Hz.
    assert (Hin : In (i, j) (empty_cells g)) by (apply empty_cells_In; auto).
    rewrite E in Hin. destruct Hin.
  - left. exists i, j. apply empty_cells_In. rewrite E. now left.
Qed.

Lemma remove_zeros_same_length (l : list Z) :
  length (Spec.remove_zeros l) = length l -> Spec.remove_zeros l = l.
Proof.
  induction l as [|x t IH]; simpl; [reflexivity|].
  pose proof (remove_zeros_length t) as Hle.
  case_bool_decide; simpl; intros Hl; [lia|]. f_equal. apply IH. lia.
Qed.

Lemma row_full_fixed (r : list Z) :
  length r = 4%nat ->
  Forall (fun v => v <> 0)
    (Spec.compact_left (Spec.compact_left (Spec.compact_left r))) ->
  Spec.compact_left r = r.
Proof.
  intros Hlen Hnz.
  pose proof (compact_left_tiles r) as T0.
  pose proof (compact_left_tiles (Spec.compact_left r)) as T1.
  pose proof (compact_left_tiles (Spec.compact_left (Spec.compact_left r)))
    as T2.
  rewrite (remove_zeros_fixed _ Hnz), !compact_left_length, Hlen in T2.
  pose proof (remove_zeros_length r) as L0. rewrite Hlen in L0.
  assert (Hm : Spec.merged r = [])
    by (destruct (Spec.merged r); [reflexivity | simpl in T0; lia]).
  rewrite compact_left_no_merge by exact Hm.
  rewrite remove_zeros_same_length by lia.
  unfold Spec.pad. rewrite Nat.sub_diag. apply app_nil_r.
Qed.

Lemma pass3_full_fixed (x : grid) :
  is_grid x -> Forall (fun v => v <> 0) (concat (pass3 x)) -> pass x = x.
Proof.
  intros [_ Hr]. unfold pass3, pass. rewrite !map_map, map_fixed.
  induction Hr as [|r t Hlen _ IH]; simpl; intros H; [constructor|].
  apply Forall_app in H as [H1 H2].
  constructor; [now apply row_full_fixed | auto].
Qed.

Lemma after_move_grid (pick val : nat) (st : game) :
  game_grid (snd (after_move pick val st))
  = game_grid (snd (add_random_tile pick val st)).
Proof.
  unfold after_move. unfold mbind at 1, M_bind at 1.
  destruct (add_random_tile pick val st) as [u st1]. cbn [snd].
  unfold mbind, M_bind.
  destruct (can_move st1) as [ok st2] eqn:E.
  pose proof (can_move_pure st1) as Hp. rewrite E in Hp. cbn [snd] in Hp.
  subst st2. now destruct ok.
Qed.

Lemma shift_room (k : key) (st : game) :
  is_grid (game_grid st) -> fst (shift k st) = true ->
  exists i j : nat, (i < 4)%nat /\ (j < 4)%nat
    /\ cell (game_grid (snd (shift k st))) i j = 0.
Proof.
  intros Hg Hm. pose proof (shift_is_grid k st Hg) as Hg'.
  destruct (empty_or_full _ Hg') as [H|Hfull]; [exact H|].
  exfalso. rewrite shift_eq in Hm by exact Hg. cbn [fst] in Hm.
  apply not_false_iff_true in Hm. apply Hm, moved3_false.
  apply pass3_full_fixed; [now apply transform_is_grid|].
  rewrite <- shift_transformed by exact Hg.
  eapply Permutation_Forall; [|exact Hfull].
  symmetry. now apply transform_cells.
Qed.

Lemma spawn_adds_tile (pick val : nat) (st : game) :
  is_grid (game_grid st) ->
  (exists i j : nat, (i < 4)%nat /\ (j < 4)%nat
     /\ cell (game_grid st) i j = 0) ->
  Spec.occupied (game_grid (snd (add_random_tile pick val st)))
  = S (Spec.occupied (game_grid st)).
Proof.
  intros Hg Hroom.
  destruct (add_random_tile_cases pick val st)
    as [[Hnil _]|(i & j & v & Hin & Hv & ->)].
  - destruct Hroom as (i & j & Hi & Hj & Hz).
    assert (Hin : In (i, j) (empty_cells (game_grid st)))
      by (apply empty_cells_In; auto).
    rewrite Hnil in Hin. destruct Hin.
  - apply empty_cells_In in Hin as (Hi & Hj & Hz).
    cbn [snd with_grid game_grid].
    apply occupied_set_cell; try assumption. lia.
Qed.

(** X6: on every 4x4 grid, when the three passes of a handler report a
    change, the grid they leave has an empty cell; so the spawn that
    [after_move] then performs never meets a full grid: it does place a
    tile, and the handler ends with exactly one more occupied cell than
    the three passes left. *)
Theorem moved_leaves_room (k : key) (pick val : nat) (st : game) :
  is_grid (game_grid st) -> fst (shift k st) = true ->
  (exists i j : nat, (i < 4)%nat /\ (j < 4)%nat
     /\ cell (game_grid (snd (shift k st))) i j = 0)
  /\ Spec.occupied (game_grid (snd (handler k pick val st)))
     = S (Spec.occupied (game_grid (snd (shift k st)))).
Proof.
  intros Hg Hm. pose proof (shift_room k st Hg Hm) as Hroom.
  split; [exact Hroom|].
  rewrite handler_eq, Hm, after_move_grid.
  apply spawn_adds_tile; [now apply shift_is_grid | exact Hroom].
Qed.

Lemma moved_leaves_room_witness :
  Spec.occupied (game_grid (snd (handler Left 0 1
    (Game [[2;2;4;8];[2;4;8;16];[4;8;16;32];[8;16;32;64]] 0 true))))
  = S (Spec.occupied (game_grid (snd (shift Left
        (Game [[2;2;4;8];[2;4;8;16];[4;8;16;32];[8;16;32;64]] 0 true))))).
Proof.
  exact (proj2 (moved_leaves_room Left 0 1
           (Game [[2;2;4;8];[2;4;8;16];[4;8;16;32];[8;16;32;64]] 0 true)
           (is_grid_intro _ _ _ _ _ _ _ _ _ _ _ _ _ _ _ _) eq_refl)).
Defined.

(** ** The end-of-game test agrees with the handlers *)

Lemma settled4 (a b c d : Z) :
  a <> 0 -> b <> 0 -> c <> 0 -> d <> 0 -> a <> b -> b <> c -> c <> d ->
  settled [a; b; c; d].
Proof. simpl. tauto. Qed.

Lemma settled_both_ways (a b c d : Z) :
  settled [a; b; c; d] -> settled [d; c; b; a] ->
  (a = 0 /\ b = 0 /\ c = 0 /\ d = 0)
  \/ (a <> 0 /\ b <> 0 /\ c <> 0 /\ d <> 0
      /\ a <> b /\ b <> c /\ c <> d).
Proof.
  simpl. intros (A1 & A2 & A3 & A4 & A5 & A6 & _) (B1 & _ & B3 & _ & B5 & _).
  destruct (decide (a = 0)) as [Ha|Ha].
  - left. pose proof (A1 Ha) as Hb. pose proof (A3 Hb) as Hc.
    pose proof (A5 Hc) as Hd. auto.
  - right.
    assert (Hb : b <> 0) by (intros E; exact (Ha (B5 E))).
    assert (Hc : c <> 0) by (intros E; exact (Hb (B3 E))).
    assert (Hd : d <> 0) by (intros E; exact (Hc (B1 E))).
    repeat split; auto.
Qed.

Lemma shift_unmoved_iff (k : key) (st : game) :
  is_grid (game_grid st) ->
  fst (shift k st) = false
  <-> Forall settled (Spec.transform k (game_grid st)).
Proof.
  intros Hg. rewrite shift_eq by exact Hg. cbn [fst].
  rewrite moved3_false. apply pass_fixed_settled.
  now apply transform_is_grid.
Qed.

Ltac eqb_facts H :=
  repeat match type of H with
         | (_ || _) = false =>
             let H1 := fresh "N" in
             apply orb_false_elim in H; destruct H as [H1 H];
             try eqb_facts H1
         end;
  try apply Z.eqb_neq in H.

Lemma over_blocks_every_key (g : grid) (s : Z) (r : bool) (k : key) :
  is_grid g -> fst (can_move (Game g s r)) = false ->
  fst (shift k (Game g s r)) = false.
Proof.
  intros Hg Hover. apply shift_unmoved_iff; [exact Hg|].
  cbn [game_grid]. grid_cases g Hg.
  unfold can_move, mbind, M_bind, mret, M_ret, get_grid in Hover.
  cbn in Hover. eqb_facts Hover.
  destruct k;
    unfold Spec.transform, Np.rot90, Np.transpose, Np.fliplr, Np.flipud;
    simpl; repeat (apply List.Forall_cons || apply List.Forall_nil);
    apply settled4;
    first [assumption | apply not_eq_sym; assumption].
Qed.

Ltac pair_lanes :=
  repeat match goal with
         | H1 : settled [?a; ?b; ?c; ?d], H2 : settled [?d; ?c; ?b; ?a] |- _ =>
             let D := fresh "D" in
             pose proof (settled_both_ways a b c d H1 H2) as D;
             clear H1 H2
         end.

Ltac split_lanes :=
  repeat match goal with
         | D : _ \/ _ |- _ =>
             destruct D as [(? & ? & ? & ?)|(? & ? & ? & ? & ? & ? & ?)];
             try contradiction
         end.

Lemma all_keys_blocked_over (g : grid) (s : Z) (r : bool) :
  is_grid g ->
  (exists i j : nat, (i < 4)%nat /\ (j < 4)%nat /\ cell g i j <> 0) ->
  (forall k : key, fst (shift k (Game g s r)) = false) ->
  fst (can_move (Game g s r)) = false.
Proof.
  intros Hg (i & j & Hi & Hj & Hnz) Hall.
  pose proof (proj1 (shift_unmoved_iff Left (Game g s r) Hg) (Hall Left)) as HL.
  pose proof (proj1 (shift_unmoved_iff Right (Game g s r) Hg) (Hall Right)) as HR.
  pose proof (proj1 (shift_unmoved_iff Up (Game g s r) Hg) (Hall Up)) as HU.
  pose proof (proj1 (shift_unmoved_iff Down (Game g s r) Hg) (Hall Down)) as HD.
  clear Hall. cbn [game_grid] in *. grid_cases g Hg. clear Hg.
  destruct i as [|[|[|[|]]]]; try lia;
    destruct j as [|[|[|[|]]]]; try lia; clear Hi Hj;
    unfold cell in Hnz; cbn [nth] in Hnz;
    unfold Spec.transform, Np.rot90, Np.transpose, Np.fliplr, Np.flipud
      in HL, HR, HU, HD;
    simpl in HL, HR, HU, HD;
    rewrite !Forall_cons in HL, HR, HU, HD;
    destruct HL as (L0 & L1 & L2 & L3 & _);
    destruct HR as (R0 & R1 & R2 & R3 & _);
    destruct HU as (U0 & U1 & U2 & U3 & _);
    destruct HD as (D0 & D1 & D2 & D3 & _);
    pair_lanes; split_lanes;
    unfold can_move, mbind, M_bind, mret, M_ret, get_grid; cbn;
    repeat match goal with
           | |- context [?a =? ?b] =>
               rewrite (proj2 (Z.eqb_neq a b))
                 by first [assumption | apply not_eq_sym; assumption]
           end;
    reflexivity.
Qed.

(** X7: on every 4x4 grid that holds a tile, [can_move] returns [False]
    exactly when none of the four handlers would change the grid: the game
    is never declared over while a key still moves something, and never
    left running on a grid that no key can change. *)
Theorem can_move_false_iff_no_key_moves (st : game) :
  is_grid (game_grid st) ->
  (exists i j : nat, (i < 4)%nat /\ (j < 4)%nat
     /\ cell (game_grid st) i j <> 0) ->
  fst (can_move st) = false <-> (forall k : key, fst (shift k st) = false).
Proof.
  intros Hg Htile. destruct st as [g s r]. cbn [game_grid] in *. split.
  - intros Hover k. now apply over_blocks_every_key.
  - now apply all_keys_blocked_over.
Qed.

Lemma can_move_false_iff_no_key_moves_witness :
  fst (can_move (Game checkerboard 0 true)) = false
  <-> (forall k : key, fst (shift k (Game checkerboard 0 true)) = false).
Proof.
  apply (can_move_false_iff_no_key_moves (Game checkerboard 0 true)).
  - apply is_grid_intro.
  - exists 0%nat, 0%nat. repeat split; [lia | lia | discriminate].
Defined.

(** ** The grid always holds tiles, and [running] tracks [can_move] *)

Lemma tiles_sum_lower (l : list Z) :
  Forall tile l -> 2 * Z.of_nat (length (Np.nonzero l)) <= sum l.
Proof.
  unfold sum, Np.nonzero.
  induction 1 as [|x t Hx _ IH]; simpl; [lia|].
  destruct Hx as [->|(k & Hk & ->)]; simpl; [lia|].
  assert (H2 : 2 ^ 1 <= 2 ^ k) by (apply Z.pow_le_mono_r; lia).
  destruct (Z.eqb_spec (2 ^ k) 0); simpl length; lia.
Qed.

Lemma tiles_sum_positive (l : list Z) :
  Forall tile l -> 0 < sum l -> (1 <= length (Np.nonzero l))%nat.
Proof.
  unfold sum, Np.nonzero.
  induction 1 as [|x t Hx _ IH]; simpl; [lia|].
  destruct (Z.eqb_spec x 0) as [->|Hne]; simpl; [intros; apply IH; lia | lia].
Qed.

Lemma full_occupied (l : list Z) :
  Forall (fun v => v <> 0) l -> length (Np.nonzero l) = length l.
Proof.
  unfold Np.nonzero. induction 1 as [|x t Hx _ IH]; simpl; [reflexivity|].
  destruct (Z.eqb_spec x 0); [contradiction | simpl; now rewrite IH].
Qed.

Lemma not_full_has_empty (g : grid) :
  is_grid g -> (Spec.occupied g < 16)%nat ->
  exists i j : nat, (i < 4)%nat /\ (j < 4)%nat /\ cell g i j = 0.
Proof.
  intros Hg Hlt. destruct (empty_or_full g Hg) as [H|Hfull]; [exact H|].
  unfold Spec.occupied in Hlt.
  rewrite (full_occupied _ Hfull), (is_grid_cells g Hg) in Hlt. lia.
Qed.

Lemma spawn_is_grid (pick val : nat) (st : game) :
  is_grid (game_grid st) ->
  is_grid (game_grid (snd (add_random_tile pick val st))).
Proof.
  intros Hg. destruct (add_random_tile_cases pick val st)
    as [[_ ->]|(i & j & v & _ & _ & ->)]; [exact Hg|].
  cbn [snd with_grid game_grid]. now apply set_cell_is_grid.
Qed.

Lemma init_two_tiles (p1 v1 p2 v2 : nat) :
  Spec.occupied (game_grid (init p1 v1 p2 v2)) = 2%nat.
Proof.
  unfold init, mbind, M_bind.
  pose proof (spawn_adds_tile p1 v1 (Game zeros44 0 true)
                (is_grid_intro _ _ _ _ _ _ _ _ _ _ _ _ _ _ _ _)) as H1.
  pose proof (spawn_is_grid p1 v1 (Game zeros44 0 true)
                (is_grid_intro _ _ _ _ _ _ _ _ _ _ _ _ _ _ _ _)) as G1.
  destruct (add_random_tile p1 v1 (Game zeros44 0 true)) as [u1 st1].
  cbn [snd game_grid] in H1, G1.
  assert (E1 : Spec.occupied (game_grid st1) = 1%nat).
  { apply H1. exists 0%nat, 0%nat. repeat split; lia. }
  pose proof (spawn_adds_tile p2 v2 st1 G1) as H2.
  destruct (add_random_tile p2 v2 st1) as [u2 st2]. cbn [snd game_grid] in *.
  rewrite H2, E1; [reflexivity|].
  apply not_full_has_empty; [exact G1 | lia].
Qed.

Lemma shift_unmoved_state (k : key) (st : game) :
  is_grid (game_grid st) -> fst (shift k st) = false -> snd (shift k st) = st.
Proof.
  intros Hg Hm. rewrite shift_eq in Hm |- * by exact Hg.
  cbn [fst snd] in *. apply moved3_false in Hm.
  rewrite pass3_fixed, pass3_fixed_score by exact Hm.
  rewrite inverse_transform_transform by exact Hg. now destruct st.
Qed.

Lemma shift_running (k : key) (st : game) :
  is_grid (game_grid st) -> running (snd (shift k st)) = running st.
Proof. intros Hg. now rewrite shift_eq by exact Hg. Qed.

Lemma reachable_two_tiles (st : game) :
  reachable st -> (2 <= Spec.occupied (game_grid st))%nat.
Proof.
  induction 1 as [p1 v1 p2 v2 | k pick val st Hr IH].
  - now rewrite init_two_tiles.
  - apply reachable_sound in Hr as Hs.
    pose proof (proj1 (sound_grid _ Hs)) as Hg.
    unfold press. destruct (running st); [|exact IH].
    rewrite handler_eq. destruct (fst (shift k st)) eqn:Hm; cbn [snd].
    + rewrite after_move_grid.
      rewrite spawn_adds_tile;
        [|now apply shift_is_grid | now apply shift_room].
      destruct (sound_shift k st Hs) as [Hs' _].
      pose proof (shift_sum k st Hs) as Hsum.
      pose proof (tiles_sum_lower _ (proj1 (proj2 (sound_grid _ Hs)))) as Hlow.
      pose proof (tiles_sum_positive _
                    (proj1 (proj2 (sound_grid _ Hs')))) as Hpos.
      unfold Spec.occupied in *. lia.
    + now rewrite shift_unmoved_state.
Qed.

(** X9: the grid of a reachable state always holds at least two tiles: the
    constructor places exactly two, and a move that merges tiles is always
    followed by a spawn. *)
Theorem reachable_has_two_tiles (st : game) :
  reachable st ->
  (2 <= Spec.occupied (game_grid st))%nat
  /\ (forall p1 v1 p2 v2 : nat,
        Spec.occupied (game_grid (init p1 v1 p2 v2)) = 2%nat).
Proof.
  intros Hr. split; [now apply reachable_two_tiles | apply init_two_tiles].
Qed.

Lemma reachable_has_two_tiles_witness :
  (2 <= Spec.occupied (game_grid (press Left 3 0 (init 0 0 0 0))))%nat.
Proof.
  exact (proj1 (reachable_has_two_tiles (press Left 3 0 (init 0 0 0 0))
           (reachable_press Left 3 0 _ (reachable_init 0 0 0 0)))).
Defined.

Lemma can_move_reads_grid (st : game) (s : Z) (r : bool) :
  fst (can_move st) = fst (can_move (Game (game_grid st) s r)).
Proof. reflexivity. Qed.

Lemma empty_cell_can_move (st : game) :
  (exists i j : nat, (i < 4)%nat /\ (j < 4)%nat
     /\ cell (game_grid st) i j = 0) ->
  fst (can_move st) = true.
Proof.
  intros (i & j & Hi & Hj & Hz). destruct st as [g s r].
  apply can_move_true. exists i, j. cbn [game_grid] in Hz. tauto.
Qed.

Lemma init_running (p1 v1 p2 v2 : nat) : running (init p1 v1 p2 v2) = true.
Proof.
  unfold init.
  destruct ((_ ← add_random_tile p1 v1; add_random_tile p2 v2)
              (Game zeros44 0 true)) as [u st].
  reflexivity.
Qed.

Lemma after_move_eq (pick val : nat) (st : game) :
  snd (after_move pick val st)
  = if fst (can_move (snd (add_random_tile pick val st)))
    then snd (add_random_tile pick val st)
    else Game (game_grid (snd (add_random_tile pick val st)))
           (score (snd (add_random_tile pick val st))) false.
Proof.
  unfold after_move. unfold mbind at 1, M_bind at 1.
  destruct (add_random_tile pick val st) as [u st1]. cbn [snd].
  unfold mbind, M_bind.
  destruct (can_move st1) as [ok st2] eqn:E.
  pose proof (can_move_pure st1) as Hp. rewrite E in Hp.
  cbn [snd] in Hp. subst st2. now destruct ok.
Qed.

Lemma reachable_running (st : game) :
  reachable st -> running st = fst (can_move st).
Proof.
  induction 1 as [p1 v1 p2 v2 | k pick val st Hr IH].
  - rewrite init_running. symmetry. apply empty_cell_can_move.
    apply not_full_has_empty; [apply (sound_init p1 v1 p2 v2)|].
    rewrite init_two_tiles. lia.
  - apply reachable_sound in Hr as Hs.
    pose proof (proj1 (sound_grid _ Hs)) as Hg.
    unfold press. destruct (running st) eqn:R; [|now rewrite R].
    rewrite handler_eq. destruct (fst (shift k st)) eqn:Hm; cbn [snd].
    + rewrite after_move_eq.
      pose proof (add_random_tile_score pick val (snd (shift k st)))
        as [_ Hrun].
      rewrite shift_running, R in Hrun by exact Hg.
      set (st1 := snd (add_random_tile pick val (snd (shift k st)))) in *.
      destruct (fst (can_move st1)) eqn:Hok.
      * now rewrite Hrun, Hok.
      * cbn [running]. now rewrite <- (can_move_reads_grid st1).
    + now rewrite shift_unmoved_state, R.
Qed.

(** X8: in every reachable state the flag [running] (and with it the key
    bindings) equals what [can_move] returns on the grid: the game is
    marked over exactly when the grid is stuck.  So while the game runs
    some arrow key changes the grid, and once it is over none does and
    every key press leaves the state as it is. *)
Theorem reachable_running_iff_can_move (st : game) :
  reachable st ->
  running st = fst (can_move st)
  /\ (running st = true <-> exists k : key, fst (shift k st) = true)
  /\ (running st = false ->
      forall (k : key) (pick val : nat), press k pick val st = st).
Proof.
  intros Hr. pose proof (reachable_running st Hr) as Hrun.
  apply reachable_sound in Hr as Hs.
  pose proof (proj1 (sound_grid _ Hs)) as Hg.
  pose proof (reachable_two_tiles st Hr) as H2.
  split; [exact Hrun|]. split.
  - rewrite Hrun. split.
    + intros Hc.
      destruct (fst (shift Left st)) eqn:EL; [now exists Left|].
      destruct (fst (shift Right st)) eqn:ER; [now exists Right|].
      destruct (fst (shift Up st)) eqn:EU; [now exists Up|].
      destruct (fst (shift Down st)) eqn:ED; [now exists Down|].
      exfalso. apply not_false_iff_true in Hc. apply Hc.
      destruct st as [g s r]. cbn [game_grid] in *.
      apply all_keys_blocked_over; [exact Hg| |intros []; assumption].
      destruct (empty_or_full g Hg) as [_|Hfull].
      * destruct (decide (Forall (fun v => v = 0) (concat g)))
          as [Hz|Hnz].
        -- exfalso. unfold Spec.occupied, Np.nonzero in H2.
           clear -Hz H2. induction Hz as [|x t -> _ IH]; simpl in H2; [lia|].
           auto.
        -- apply not_Forall_Exists in Hnz; [|intros x; apply _].
           apply Exists_exists in Hnz as (v & Hin & Hv).
           rewrite (concat_as_cells g Hg) in Hin.
           apply list_elem_of_In, in_map_iff in Hin as ([i j] & <- & Hp).
           unfold range in Hp.
           apply in_flat_map in Hp as (i' & Hi & Hp).
           apply in_map_iff in Hp as (j' & E & Hj). injection E as -> ->.
           apply in_seq in Hi, Hj. exists i, j. cbn [fst snd] in Hv.
           repeat split; [lia | lia | exact Hv].
      * exists 0%nat, 0%nat. repeat split; [lia | lia |].
        apply (proj1 (Forall_cells _ g Hg) Hfull); lia.
    + intros (k & Hk). apply not_false_iff_true. intros Hc.
      destruct st as [g s r].
      rewrite (over_blocks_every_key g s r k Hg Hc) in Hk. discriminate.
  - intros R k pick val. unfold press. now rewrite R.
Qed.

Lemma reachable_running_iff_can_move_witness :
  running (press Up 1 1 (init 2 0 7 1))
  = fst (can_move (press Up 1 1 (init 2 0 7 1))).
Proof.
  exact (proj1 (reachable_running_iff_can_move (press Up 1 1 (init 2 0 7 1))
           (reachable_press Up 1 1 _ (reachable_init 2 0 7 1)))).
Defined.

(** ** A move never adds tiles *)

Lemma occupied_Permutation (a b : grid) :
  concat a ≡ₚ concat b -> Spec.occupied a = Spec.occupied b.
Proof.
  intros Hp. apply Nat2Z.inj. rewrite !occupied_total.
  now apply total_Permutation.
Qed.

Lemma nonzero_app (a b : list Z) :
  Np.nonzero (a ++ b) = Np.nonzero a ++ Np.nonzero b.
Proof. unfold Np.nonzero. apply List.filter_app. Qed.

Lemma pass_occupied (g : grid) :
  (Spec.occupied (pass g) + length (Spec.merged_grid g)
   <= Spec.occupied g)%nat.
Proof.
  unfold Spec.occupied, Spec.merged_grid, pass.
  induction g as [|r g IH]; simpl; [lia|].
  rewrite !nonzero_app, !length_app.
  pose proof (compact_left_tiles r) as Hr.
  rewrite <- !nonzero_remove_zeros in Hr. lia.
Qed.

(** X10: on every 4x4 grid and in every direction, the three passes of a
    handler never increase the number of occupied cells, and each merge of
    the first pass frees at least one cell. *)
Theorem shift_never_adds_tiles (k : key) (st : game) :
  is_grid (game_grid st) ->
  (Spec.occupied (game_grid (snd (shift k st)))
   + length (Spec.merged_grid (Spec.transform k (game_grid st)))
   <= Spec.occupied (game_grid st))%nat.
Proof.
  intros Hg. rewrite shift_eq by exact Hg. cbn [snd game_grid].
  pose proof (transform_is_grid k _ Hg) as Ht.
  set (x := Spec.transform k (game_grid st)) in *.
  rewrite (occupied_Permutation _ (pass3 x))
    by (apply inverse_transform_cells; now do 3 apply pass_is_grid).
  rewrite <- (occupied_Permutation x (game_grid st))
    by (now apply transform_cells).
  unfold pass3.
  pose proof (pass_occupied x). pose proof (pass_occupied (pass x)).
  pose proof (pass_occupied (pass (pass x))). lia.
Qed.

Lemma shift_never_adds_tiles_witness :
  Nat.le
    (Nat.add
       (Spec.occupied (game_grid (snd (shift Right
          (Game [[2;2;4;8];[0;0;0;0];[2;0;2;4];[4;4;4;4]] 0 true)))))
       (length (Spec.merged_grid (Spec.transform Right
          [[2;2;4;8];[0;0;0;0];[2;0;2;4];[4;4;4;4]]))))
    (Spec.occupied [[2;2;4;8];[0;0;0;0];[2;0;2;4];[4;4;4;4]]).
Proof.
  exact (shift_never_adds_tiles Right
           (Game [[2;2;4;8];[0;0;0;0];[2;0;2;4];[4;4;4;4]] 0 true)
           (is_grid_intro _ _ _ _ _ _ _ _ _ _ _ _ _ _ _ _)).
Defined.

(** ** The colours of the tiles *)

Lemma get_color_known (a : Z) :
  In a color_keys -> get_color a <> "black"%string.
Proof.
  unfold color_keys. simpl. intros H.
  repeat (destruct H as [<-|H]; [vm_compute; discriminate|]).
  destruct H.
Qed.

Lemma get_color_unknown (a : Z) :
  ~ In a color_keys -> get_color a = "black"%string.
Proof.
  intros Hn. unfold get_color.
  destruct (colors !! a) as [c|] eqn:E; [|reflexivity].
  exfalso. apply Hn. unfold colors in E.
  apply elem_of_list_to_map_2, list_elem_of_In in E.
  unfold color_keys. simpl in E |- *.
  repeat (destruct E as [E|E]; [injection E as <- _; tauto|]).
  destruct E.
Qed.

(** X11: [get_color] gives each of the twelve values 0, 2, 4, ..., 2048 a
    colour of its own, none of them black, and gives black to every other
    number: two tiles up to 2048 look alike only if they are equal, and
    every larger tile is black. *)
Theorem get_color_table (a b : Z) :
  (get_color a = "black"%string <-> ~ In a color_keys)
  /\ (In a color_keys -> In b color_keys ->
      get_color a = get_color b -> a = b).
Proof.
  split.
  - split.
    + intros Hb Hin. exact (get_color_known a Hin Hb).
    + apply get_color_unknown.
  - unfold color_keys. simpl. intros Ha Hb.
    repeat (destruct Ha as [<-|Ha];
            [repeat (destruct Hb as [<-|Hb];
                     [vm_compute; intros E; first [reflexivity | discriminate]|]);
             destruct Hb|]).
    destruct Ha.
Qed.

(** ** What the labels show *)

Lemma str_read (n : Z) :
  NilZero.int_of_string (str n) = Some (Z.to_int n).
Proof.
  unfold str. apply NilZero.isi.
  - destruct n; simpl; try discriminate.
    intros [= E]. exact (DecimalPos.Unsigned.to_uint_nonnil _ E).
  - destruct n; simpl; try discriminate.
    intros [= E]. exact (DecimalPos.Unsigned.to_uint_nonnil _ E).
Qed.

Lemma str_nonempty (n : Z) : str n <> ""%string.
Proof.
  intros E. pose proof (str_read n) as H. rewrite E in H. discriminate.
Qed.

Lemma str_inj (a b : Z) : str a = str b -> a = b.
Proof.
  intros E. pose proof (str_read a) as Ha. rewrite E, str_read in Ha.
  injection Ha as Ha. now apply DecimalZ.to_int_inj.
Qed.

Lemma read_tile_label (n : Z) : read_text (text (tile_label n)) = Some n.
Proof.
  destruct (decide (n = 0)) as [->|Hn]; [reflexivity|].
  unfold tile_label, read_text. cbn [text].
  rewrite (bool_decide_eq_true_2 (n <> 0)) by exact Hn.
  rewrite bool_decide_eq_false_2 by apply str_nonempty.
  rewrite str_read. simpl. now rewrite DecimalZ.of_to.
Qed.

Lemma tile_label_inj (a b : Z) : tile_label a = tile_label b -> a = b.
Proof.
  intros E. pose proof (read_tile_label a) as Ha.
  rewrite E, read_tile_label in Ha. congruence.
Qed.

Lemma label_grid_rows (ls : list (list label)) :
  label_grid ls ->
  exists a0 a1 a2 a3 b0 b1 b2 b3 c0 c1 c2 c3 d0 d1 d2 d3 : label,
    ls = [[a0;a1;a2;a3];[b0;b1;b2;b3];[c0;c1;c2;c3];[d0;d1;d2;d3]].
Proof.
  intros [Hl Hr].
  assert (H4 : forall r : list label, length r = 4%nat ->
            exists a b c d, r = [a; b; c; d]).
  { intros [|a [|b [|c [|d [|]]]]]; simpl; intros H; try lia.
    now exists a, b, c, d. }
  destruct ls as [|ra [|rb [|rc [|rd [|]]]]]; simpl in Hl; try lia.
  inversion Hr as [|? ? Ha Hr1]; subst.
  inversion Hr1 as [|? ? Hb Hr2]; subst.
  inversion Hr2 as [|? ? Hc Hr3]; subst.
  inversion Hr3 as [|? ? Hd _]; subst.
  destruct (H4 _ Ha) as (a0 & a1 & a2 & a3 & ->).
  destruct (H4 _ Hb) as (b0 & b1 & b2 & b3 & ->).
  destruct (H4 _ Hc) as (c0 & c1 & c2 & c3 & ->).
  destruct (H4 _ Hd) as (d0 & d1 & d2 & d3 & ->).
  now exists a0, a1, a2, a3, b0, b1, b2, b3, c0, c1, c2, c3, d0, d1, d2, d3.
Qed.

Lemma rendered_label_grid (g : grid) : is_grid g -> label_grid (rendered g).
Proof.
  intros [Hl Hr]. unfold rendered. split.
  - now rewrite length_map.
  - rewrite Forall_map. eapply Forall_impl; [exact Hr|].
    simpl. intros r Hlen. now rewrite length_map.
Qed.

Lemma update_grid_labels (w : window) :
  is_grid (game_grid (model w)) -> label_grid (grid_labels w) ->
  grid_labels (update_grid w) = rendered (game_grid (model w)).
Proof.
  intros Hg Hls. unfold update_grid. cbn [grid_labels].
  destruct (label_grid_rows _ Hls)
    as (? & ? & ? & ? & ? & ? & ? & ? & ? & ? & ? & ? & ? & ? & ? & ? & ->).
  grid_cases (game_grid (model w)) Hg. reflexivity.
Qed.

(** X12: after [update_grid], on a 4x4 grid, the label of every cell has
    empty text exactly when the cell is empty and otherwise shows the
    decimal numeral of the tile, so that the cell can be read back from
    the text; its background is the tile's colour; the score label shows
    the score; game state and clock are untouched. *)
Theorem update_grid_shows_state (w : window) (i j : nat) :
  is_grid (game_grid (model w)) -> label_grid (grid_labels w) ->
  (i < 4)%nat -> (j < 4)%nat ->
  (text (nth j (nth i (grid_labels (update_grid w)) []) (Label "" ""))
     = ""%string <-> cell (game_grid (model w)) i j = 0)
  /\ read_text
       (text (nth j (nth i (grid_labels (update_grid w)) []) (Label "" "")))
     = Some (cell (game_grid (model w)) i j)
  /\ bg (nth j (nth i (grid_labels (update_grid w)) []) (Label "" ""))
     = get_color (cell (game_grid (model w)) i j)
  /\ score_label (update_grid w)
     = ("Score: " +:+ str (score (model w)))%string
  /\ model (update_grid w) = model w
  /\ time_elapsed (update_grid w) = time_elapsed w
  /\ time_label (update_grid w) = time_label w.
Proof.
  intros Hg Hls Hi Hj.
  assert (E : nth j (nth i (grid_labels (update_grid w)) []) (Label "" "")
              = tile_label (cell (game_grid (model w)) i j)).
  { rewrite update_grid_labels by assumption.
    grid_cases (game_grid (model w)) Hg.
    destruct i as [|[|[|[|]]]]; try lia;
      destruct j as [|[|[|[|]]]]; try lia; reflexivity. }
  rewrite E. split; [|split; [apply read_tile_label | repeat split]].
  unfold tile_label. cbn [text]. case_bool_decide as Hn.
  - split; [intros H; now apply str_nonempty in H | contradiction].
  - split; [intros _; destruct (decide (cell (game_grid (model w)) i j = 0));
            [assumption | contradiction] | reflexivity].
Qed.

Lemma update_grid_shows_state_witness :
  read_text
    (text (nth 2 (nth 1 (grid_labels (update_grid
       (Window (Game [[2;0;0;0];[0;4;2048;0];[0;0;0;0];[0;0;0;2]] 4 true)
          1 "" "" (repeat (repeat (Label "" "lightgray") 4) 4) 0 true)))
       []) (Label "" "")))
  = Some (cell [[2;0;0;0];[0;4;2048;0];[0;0;0;0];[0;0;0;2]] 1 2).
Proof.
  assert (Hl : label_grid (repeat (repeat (Label "" "lightgray") 4) 4))
    by (split; [reflexivity | repeat constructor]).
  exact (proj1 (proj2 (update_grid_shows_state
    (Window (Game [[2;0;0;0];[0;4;2048;0];[0;0;0;0];[0;0;0;2]] 4 true)
       1 "" "" (repeat (repeat (Label "" "lightgray") 4) 4) 0 true) 1 2
    (is_grid_intro _ _ _ _ _ _ _ _ _ _ _ _ _ _ _ _) Hl
    ltac:(lia) ltac:(lia)))).
Defined.

(** ** The window stays in step with the game *)

Lemma with_model_id (w : window) : with_model w (model w) = w.
Proof. now destruct w. Qed.

Lemma model_after_move_w (pick val : nat) (w : window) :
  model (after_move_w pick val w) = snd (after_move pick val (model w)).
Proof.
  rewrite after_move_eq. unfold after_move_w.
  cbn [update_grid model with_model].
  destruct (fst (can_move (snd (add_random_tile pick val (model w)))));
    reflexivity.
Qed.

Lemma model_on_key (k : key) (pick val : nat) (w : window) :
  model (on_event (KeyPress k pick val) w) = press k pick val (model w).
Proof.
  unfold on_event, press. destruct (running (model w)); [|reflexivity].
  unfold handler_w. rewrite handler_eq.
  destruct (shift k (model w)) as [[] m]; cbn [fst snd].
  - now rewrite model_after_move_w.
  - reflexivity.
Qed.

Lemma reachable_is_grid (m : game) : reachable m -> is_grid (game_grid m).
Proof. intros H. apply reachable_sound in H. apply H. Qed.

Lemma in_sync_init (p1 v1 p2 v2 : nat) : in_sync (init_w p1 v1 p2 v2).
Proof.
  unfold init_w, update_timer. cbn [update_grid model].
  rewrite init_running.
  pose proof (reachable_init p1 v1 p2 v2) as Hr.
  constructor; cbn [model grid_labels score_label time_label time_elapsed
                    game_over_labels timer_pending]; try reflexivity.
  - exact Hr.
  - apply update_grid_labels; cbn [model grid_labels].
    + now apply reachable_is_grid.
    + split; [reflexivity | repeat constructor].
  - now rewrite init_running.
Qed.

Lemma after_move_w_eq (pick val : nat) (w : window) :
  after_move_w pick val w
  = Window
      (if fst (can_move (snd (add_random_tile pick val (model w))))
       then snd (add_random_tile pick val (model w))
       else Game (game_grid (snd (add_random_tile pick val (model w))))
              (score (snd (add_random_tile pick val (model w)))) false)
      (time_elapsed w)
      ("Score: " +:+ str (score (snd (add_random_tile pick val (model w)))))
      (time_label w)
      (grid_labels
         (update_grid
            (with_model w (snd (add_random_tile pick val (model w))))))
      (if fst (can_move (snd (add_random_tile pick val (model w))))
       then game_over_labels w else S (game_over_labels w))
      (timer_pending w).
Proof.
  unfold after_move_w. cbn [update_grid model with_model].
  destruct (fst (can_move (snd (add_random_tile pick val (model w)))));
    reflexivity.
Qed.

Lemma handler_w_eq (k : key) (pick val : nat) (w : window) :
  handler_w k pick val w
  = if fst (shift k (model w))
    then after_move_w pick val (with_model w (snd (shift k (model w))))
    else with_model w (snd (shift k (model w))).
Proof. unfold handler_w. now destruct (shift k (model w)) as [[] m]. Qed.

Lemma in_sync_key (k : key) (pick val : nat) (w : window) :
  in_sync w -> in_sync (on_event (KeyPress k pick val) w).
Proof.
  intros Hw. pose proof (model_on_key k pick val w) as Hmodel.
  destruct Hw as [Hm Hl Hs Ht Ho Hc Hp].
  pose proof (reachable_press k pick val _ Hm) as Hm'.
  rewrite <- Hmodel in Hm'. clear Hmodel.
  unfold on_event in *. destruct (running (model w)) eqn:R;
    [|now constructor; rewrite ?R].
  rewrite handler_w_eq in *.
  pose proof (reachable_is_grid _ Hm) as Hg.
  destruct (fst (shift k (model w))) eqn:Hmv.
  - rewrite after_move_w_eq in *. cbn [model with_model] in *.
    pose proof (shift_is_grid k (model w) Hg) as Hg1.
    pose proof (shift_running k (model w) Hg) as Hr1.
    set (m := snd (shift k (model w))) in *.
    pose proof (spawn_is_grid pick val m Hg1) as Hg2.
    pose proof (add_random_tile_score pick val m) as [_ Hr2].
    set (m1 := snd (add_random_tile pick val m)) in *.
    assert (Hlab : grid_labels (update_grid (with_model (with_model w m) m1))
                   = rendered (game_grid m1)).
    { apply update_grid_labels; cbn [with_model model grid_labels];
        [exact Hg2|]. rewrite Hl. now apply rendered_label_grid. }
    constructor; cbn [model grid_labels score_label time_label time_elapsed
                      game_over_labels timer_pending with_model];
      try assumption.
    + rewrite Hlab. now destruct (fst (can_move m1)).
    + now destruct (fst (can_move m1)).
    + destruct (fst (can_move m1)); cbn [running].
      * now rewrite Hr2, Hr1, R.
      * now rewrite Ho.
    + destruct (fst (can_move m1)); cbn [running]; [|discriminate].
      intros _. now apply Hp.
  - rewrite (shift_unmoved_state k (model w) Hg Hmv), with_model_id in *.
    constructor; rewrite ?R; assumption.
Qed.

Lemma in_sync_tick (w : window) : in_sync w -> in_sync (on_event Tick w).
Proof.
  intros Hw. unfold on_event.
  destruct (timer_pending w) eqn:P; [|exact Hw].
  destruct Hw as [Hm Hl Hs Ht Ho Hc Hp].
  unfold update_timer. cbn [model]. destruct (running (model w)) eqn:R.
  - constructor; cbn [model grid_labels score_label time_label
                      time_elapsed game_over_labels timer_pending];
      rewrite ?R; try assumption; try reflexivity. lia.
  - constructor; cbn [model grid_labels score_label time_label
                      time_elapsed game_over_labels timer_pending];
      rewrite ?R; try assumption; try reflexivity. discriminate.
Qed.

Lemma in_sync_event (e : event) (w : window) :
  in_sync w -> in_sync (on_event e w).
Proof. destruct e; [apply in_sync_key | apply in_sync_tick]. Qed.

Lemma reachable_w_in_sync (w : window) : reachable_w w -> in_sync w.
Proof.
  induction 1 as [p1 v1 p2 v2 | e w _ IH];
    [apply in_sync_init | now apply in_sync_event].
Qed.

(** X13: between any two events the window shows the game as it is: the
    sixteen tile labels are those of the current grid, the score label
    shows the current score and the time label the current clock, and a
    "Game Over!" label exists (exactly one) exactly when the game has
    stopped running.  The handlers call [update_grid] only after a move
    that changed the grid; the labels stay right all the same, because a
    handler that reports no change has left grid and score as they
    were. *)
Theorem window_shows_the_game (w : window) :
  reachable_w w ->
  grid_labels w = rendered (game_grid (model w))
  /\ score_label w = ("Score: " +:+ str (score (model w)))%string
  /\ time_label w = ("Time: " +:+ str (time_elapsed w) +:+ " s")%string
  /\ game_over_labels w = (if running (model w) then 0%nat else 1%nat)
  /\ reachable (model w)
  /\ (forall (k : key) (pick val : nat),
        model (on_event (KeyPress k pick val) w)
        = press k pick val (model w)).
Proof.
  intros Hr. apply reachable_w_in_sync in Hr as [Hm Hl Hs Ht Ho Hc Hp].
  repeat split; try assumption. intros k pick val. apply model_on_key.
Qed.

Lemma window_shows_the_game_witness :
  grid_labels (on_event (KeyPress Left 3 0) (init_w 0 0 0 0))
  = rendered (game_grid (model
      (on_event (KeyPress Left 3 0) (init_w 0 0 0 0)))).
Proof.
  exact (proj1 (window_shows_the_game
           (on_event (KeyPress Left 3 0) (init_w 0 0 0 0))
           (reachable_w_event _ _ (reachable_w_init 0 0 0 0)))).
Defined.

(** X14: the clock starts at 1 (the constructor calls [update_timer]
    directly) and, in every reachable window, a timer callback is pending
    as long as the game runs and each callback then adds one second and
    schedules the next; once the game is over a callback changes neither
    the clock nor its label and schedules nothing, so the clock stops. *)
Theorem timer_runs_while_game_runs (w : window) :
  reachable_w w ->
  1 <= time_elapsed w
  /\ (forall p1 v1 p2 v2 : nat, time_elapsed (init_w p1 v1 p2 v2) = 1)
  /\ (running (model w) = true ->
      timer_pending w = true
      /\ time_elapsed (on_event Tick w) = time_elapsed w + 1
      /\ timer_pending (on_event Tick w) = true)
  /\ (running (model w) = false ->
      time_elapsed (on_event Tick w) = time_elapsed w
      /\ time_label (on_event Tick w) = time_label w
      /\ timer_pending (on_event Tick w) = false).
Proof.
  intros Hr. apply reachable_w_in_sync in Hr as [Hm Hl Hs Ht Ho Hc Hp].
  split; [exact Hc|]. split; [|split].
  - intros p1 v1 p2 v2. unfold init_w, update_timer.
    cbn [update_grid model]. now rewrite init_running.
  - intros R. pose proof (Hp R) as P. split; [exact P|].
    unfold on_event, update_timer. rewrite P. cbn [model]. rewrite R.
    split; reflexivity.
  - intros R. unfold on_event, update_timer.
    destruct (timer_pending w) eqn:P; cbn [model]; rewrite ?R;
      repeat split; try reflexivity; exact P.
Qed.

Lemma timer_runs_while_game_runs_witness :
  1 <= time_elapsed (on_event Tick (init_w 1 0 2 0)).
Proof.
  exact (proj1 (timer_runs_while_game_runs (on_event Tick (init_w 1 0 2 0))
           (reachable_w_event _ _ (reachable_w_init 1 0 2 0)))).
Defined.
